(** * ResonanceFlow: the HRV analysis pipeline

    A shallow embedding of the analysis code of the repository: the
    artifact filter, the time-domain metrics, the resampler, the Welch PSD,
    the band integral and the coherence score of src/analysis, the analysis
    worker, the calibration scan and signal-quality score of the App
    component, the ring buffer of the live charts and the parser of the
    heart-rate packets.

    Number model.  A JavaScript [number] that the pipeline computes with is
    modelled as an exact rational ([Q]): sums, products and quotients are the
    ideal ones, so statements that the code only satisfies up to rounding are
    stated with [==] on [Q].  Raw input arrays, which the code screens with
    [Number.isFinite] and with comparisons, are lists of [number], a rational
    or one of the three non-finite values.  [Math.sqrt], [Math.cos],
    [Math.sin] and [Math.PI] are not rational functions: the definitions that
    call them take them as section variables.

    Where a result depends on the rounding of the doubles the exact model
    does not decide it: the score of [computeSignalQuality] is a
    [Math.round], so that function is followed a second time in IEEE 754
    binary64 (module [F64]), and its score is stated there. *)

From Stdlib Require Import QArith Qround Qabs Qminmax Lqa.
From Stdlib Require Import ZArith Lia Arith PeanoNat.
From Stdlib Require Import Bool String.
From Stdlib.Strings Require Import Byte.
From Stdlib Require Floats.
From Stdlib Require Import List.
Import ListNotations.

Local Open Scope Q_scope.

(** ** Numbers *)

Module Num.

(** Strict comparison on rationals, as a boolean. *)
Definition ltb (x y : Q) : bool :=
  match x ?= y with Lt => true | _ => false end.

Definition leb (x y : Q) : bool := Qle_bool x y.

Definition eqb (x y : Q) : bool := Qeq_bool x y.

(** A raw JavaScript number: what an input array may hold. *)
Inductive number : Type :=
| Finite (q : Q)
| PosInfinity
| NegInfinity
| NaN.

(** [Number.isFinite]. *)
Definition isFinite (x : number) : bool :=
  match x with Finite _ => true | _ => false end.

(** [x < y], [x > y], [x <= y], [x >= y] of a raw number against a finite
    bound: every comparison with NaN is false. *)
Definition lt_bound (x : number) (b : Q) : bool :=
  match x with
  | Finite q => ltb q b
  | NegInfinity => true
  | PosInfinity | NaN => false
  end.

Definition gt_bound (x : number) (b : Q) : bool :=
  match x with
  | Finite q => ltb b q
  | PosInfinity => true
  | NegInfinity | NaN => false
  end.

Definition le_bound (x : number) (b : Q) : bool :=
  match x with
  | Finite q => leb q b
  | NegInfinity => true
  | PosInfinity | NaN => false
  end.

Definition ge_bound (x : number) (b : Q) : bool :=
  match x with
  | Finite q => leb b q
  | PosInfinity => true
  | NegInfinity | NaN => false
  end.

(** [Math.round]: the nearest integer, halves rounded up. *)
Definition round (x : Q) : Z := Qfloor (x + (1 # 2)).

(** [Math.floor]. *)
Definition floor (x : Q) : Z := Qfloor x.

Definition of_nat (n : nat) : Q := inject_Z (Z.of_nat n).

End Num.

(** [Math.sqrt], [Math.cos], [Math.sin] and [Math.PI]: the part of
    JavaScript's [Math] object that has no rational model. *)
Class MathLib : Type := {
  Math_sqrt : Q -> Q;
  Math_cos : Q -> Q;
  Math_sin : Q -> Q;
  Math_PI : Q
}.

(** ** Arrays *)

(** [Array.prototype.slice(start, end)], negative indices counting from the
    end of the array. *)
Definition slice {A : Type} (l : list A) (start stop : Z) : list A :=
  let len := Z.of_nat (length l) in
  let k := if (start <? 0)%Z then Z.max (len + start) 0 else Z.min start len in
  let final := if (stop <? 0)%Z then Z.max (len + stop) 0 else Z.min stop len in
  firstn (Z.to_nat (final - k)) (skipn (Z.to_nat k) l).

(** [[...values].sort((a, b) => a - b)]: a stable ascending sort. *)
Fixpoint sort_insert (x : Q) (l : list Q) : list Q :=
  match l with
  | [] => [x]
  | y :: l' => if Num.leb x y then x :: l else y :: sort_insert x l'
  end.

Definition sort (values : list Q) : list Q := fold_right sort_insert [] values.

(** Order-preserving subsequence: [Subseq l1 l2] when [l1] is [l2] with some
    elements left out. *)
Inductive Subseq {A : Type} : list A -> list A -> Prop :=
| Subseq_nil : Subseq [] []
| Subseq_skip x l1 l2 : Subseq l1 l2 -> Subseq l1 (x :: l2)
| Subseq_keep x l1 l2 : Subseq l1 l2 -> Subseq (x :: l1) (x :: l2).

(** A thrown [Error] carries its message. *)
Inductive result (A : Type) : Type :=
| Ok (a : A)
| Throw (message : string).
Arguments Ok {A} a.
Arguments Throw {A} message.

(** ** src/analysis/types.ts *)

Record PsdData : Type := mkPsd { psd_f : list Q; psd_p : list Q }.

Record CoherenceMetrics : Type := mkCoherence {
  coherenceScore : Q;
  peakFrequencyHz : Q;
  peakPower : Q;
  targetBandPower : Q
}.

Record CleanedRrData : Type := mkCleaned {
  cleaned_rrTimes_s : list Q;
  cleaned_rr_s : list Q
}.

Record TimeDomainMetrics : Type := mkTimeDomain {
  meanHr : Q;
  meanRr : Q;
  rmssd : Q;
  sdnn : Q;
  pnn50 : Q
}.

Record AnalysisMetrics : Type := mkMetrics {
  m_time : TimeDomainMetrics;
  m_coherence : CoherenceMetrics;
  lfPower : Q;
  hfPower : Q;
  totalPower : Q
}.

Record AnalysisResult : Type := mkAnalysis {
  result_metrics : AnalysisMetrics;
  result_psd : PsdData;
  result_cleaned : CleanedRrData
}.

Record AnalyzePayload : Type := mkPayload {
  payload_rrTimes_s : list Num.number;
  payload_rr_s : list Num.number;
  payload_targetHz : Q
}.

Record WorkerAnalyzeMessage : Type := mkRequest {
  request_type : string;
  request_payload : AnalyzePayload
}.

Inductive WorkerResponseMessage : Type :=
| WorkerResultMessage (payload : AnalysisResult)
| WorkerErrorMessage (message : string).

Record CalibrationPoint : Type := mkPoint {
  frequencyHz : Q;
  breathsPerMin : Q;
  score : Q;
  point_peakFrequencyHz : Q;
  point_peakPower : Q
}.

Record CalibrationSummary : Type := mkSummary {
  scanned : list CalibrationPoint;
  best : option CalibrationPoint
}.

(** ** src/analysis/artifact.ts *)

Record ArtifactOptions : Type := mkOptions {
  opt_minRrSec : option Q;
  opt_maxRrSec : option Q;
  opt_windowSize : option Q;
  opt_sigma : option Q
}.

Record ArtifactConfig : Type := mkConfig {
  minRrSec : Q;
  maxRrSec : Q;
  windowSize : Q;
  sigma : Q
}.

Definition DEFAULT_OPTIONS : ArtifactConfig :=
  {| minRrSec := 3 # 10; maxRrSec := 2; windowSize := 5; sigma := 3 |}.

(** No option given: the [options = {}] default of [cleanRrSeries]. *)
Definition no_options : ArtifactOptions :=
  {| opt_minRrSec := None; opt_maxRrSec := None;
     opt_windowSize := None; opt_sigma := None |}.

(** [{ ...DEFAULT_OPTIONS, ...options }]. *)
Definition merge_options (options : ArtifactOptions) : ArtifactConfig :=
  {| minRrSec := match opt_minRrSec options with
                 | Some v => v | None => minRrSec DEFAULT_OPTIONS end;
     maxRrSec := match opt_maxRrSec options with
                 | Some v => v | None => maxRrSec DEFAULT_OPTIONS end;
     windowSize := match opt_windowSize options with
                   | Some v => v | None => windowSize DEFAULT_OPTIONS end;
     sigma := match opt_sigma options with
              | Some v => v | None => sigma DEFAULT_OPTIONS end |}.

Definition median (values : list Q) : Q :=
  if (length values =? 0)%nat then 0
  else
    let sorted := sort values in
    let mid := (length sorted / 2)%nat in
    if (length sorted mod 2 =? 0)%nat
    then (nth (mid - 1) sorted 0 + nth mid sorted 0) / 2
    else nth mid sorted 0.

(** The first loop of [cleanRrSeries]; the state is
    [(rangeTimes, rangeValues)]. *)
Definition range_step (config : ArtifactConfig)
    (rrTimes_s rr_s : list Num.number)
    (st : list Q * list Q) (i : nat) : list Q * list Q :=
  match nth i rr_s Num.NaN, nth i rrTimes_s Num.NaN with
  | Num.Finite value, Num.Finite time =>
      if Num.ltb value (minRrSec config) || Num.ltb (maxRrSec config) value
      then st
      else (fst st ++ [time], snd st ++ [value])
  | _, _ => st
  end.

Definition range_filter (config : ArtifactConfig)
    (rrTimes_s rr_s : list Num.number) : list Q * list Q :=
  fold_left (range_step config rrTimes_s rr_s) (seq 0 (length rr_s)) ([], []).

(** The test of the second loop: is sample [i] of the range-filtered series
    kept? *)
Definition hampel_keep (config : ArtifactConfig) (rangeValues : list Q)
    (i : nat) : bool :=
  let halfWindow := Num.floor (windowSize config / 2) in
  let start := Z.max 0 (Z.of_nat i - halfWindow) in
  let stop := Z.min (Z.of_nat (length rangeValues) - 1)
                    (Z.of_nat i + halfWindow) in
  let local := slice rangeValues start (stop + 1) in
  let localMedian := median local in
  let deviations := map (fun value => Qabs (value - localMedian)) local in
  let mad := median deviations in
  if Num.eqb mad 0 then true
  else
    let scaledMad := (14826 # 10000) * mad in
    let threshold := sigma config * scaledMad in
    let delta := Qabs (nth i rangeValues 0 - localMedian) in
    Num.leb delta threshold.

Definition hampel_step (config : ArtifactConfig)
    (rangeTimes rangeValues : list Q)
    (st : list Q * list Q) (i : nat) : list Q * list Q :=
  if hampel_keep config rangeValues i
  then (fst st ++ [nth i rangeTimes 0], snd st ++ [nth i rangeValues 0])
  else st.

Definition cleanRrSeries (rrTimes_s rr_s : list Num.number)
    (options : ArtifactOptions) : result CleanedRrData :=
  let config := merge_options options in
  if negb (length rrTimes_s =? length rr_s)%nat
  then Throw "rrTimes_s and rr_s lengths do not match"
  else
    let '(rangeTimes, rangeValues) := range_filter config rrTimes_s rr_s in
    if (length rangeValues <? 3)%nat
    then Ok {| cleaned_rrTimes_s := rangeTimes; cleaned_rr_s := rangeValues |}
    else
      let '(filteredTimes, filteredValues) :=
        fold_left (hampel_step config rangeTimes rangeValues)
          (seq 0 (length rangeValues)) ([], []) in
      Ok {| cleaned_rrTimes_s := filteredTimes;
            cleaned_rr_s := filteredValues |}.

(** ** src/analysis/metrics.ts *)

Definition mean (values : list Q) : Q :=
  if (length values =? 0)%nat then 0
  else fold_left (fun sum value => sum + value) values 0
       / Num.of_nat (length values).

Definition std `{MathLib} (values : list Q) : Q :=
  if (length values <? 2)%nat then 0
  else
    let m := mean values in
    let variance :=
      fold_left (fun sum value => let delta := value - m in sum + delta * delta)
        values 0 in
    Math_sqrt (variance / Num.of_nat (length values - 1)).

Definition computeTimeDomain `{MathLib} (rr_s : list Q) : TimeDomainMetrics :=
  if (length rr_s =? 0)%nat
  then {| meanHr := 0; meanRr := 0; rmssd := 0; sdnn := 0; pnn50 := 0 |}
  else
    let meanRr := mean rr_s in
    let meanHr := if Num.ltb 0 meanRr then 60 / meanRr else 0 in
    let sdnn := std rr_s in
    let diffs :=
      map (fun i => nth i rr_s 0 - nth (i - 1) rr_s 0)
          (seq 1 (length rr_s - 1)) in
    let rmssd :=
      if (0 <? length diffs)%nat
      then Math_sqrt (fold_left (fun sum value => sum + value * value) diffs 0
                      / Num.of_nat (length diffs))
      else 0 in
    let nn50Count :=
      length (filter (fun value => Num.ltb (5 # 100) (Qabs value)) diffs) in
    let pnn50 :=
      if (0 <? length diffs)%nat
      then (Num.of_nat nn50Count / Num.of_nat (length diffs)) * 100
      else 0 in
    {| meanHr := meanHr; meanRr := meanRr; rmssd := rmssd;
       sdnn := sdnn; pnn50 := pnn50 |}.

(** ** src/analysis/psd.ts *)

(** [value] is a length here, hence a natural number: [Math.log2] of it,
    rounded down, is [Nat.log2]. *)
Definition highestPowerOfTwo (value : nat) : nat :=
  if (value <? 1)%nat then 0%nat else (2 ^ Nat.log2 value)%nat.

Record ResampledSignal : Type := mkSignal {
  signal_fs : Q;
  signal_t : list Q;
  signal_y : list Q
}.

(** The inner [while] loop of [resampleRrToUniform]: [sourceIndex] stays
    below [length - 2], so [length] iterations are always enough. *)
Fixpoint advance_cursor (fuel : nat) (rrTimes_s : list Q) (currentTime : Q)
    (sourceIndex : nat) : nat :=
  match fuel with
  | O => sourceIndex
  | S fuel' =>
      if (sourceIndex <? length rrTimes_s - 2)%nat
         && Num.ltb (nth (sourceIndex + 1) rrTimes_s 0) currentTime
      then advance_cursor fuel' rrTimes_s currentTime (sourceIndex + 1)
      else sourceIndex
  end.

(** The [for] loop over [currentTime]; [None] when [fuel] iterations do not
    reach [tEnd]. *)
Fixpoint resample_loop (fuel : nat) (rrTimes_s rr_s : list Q) (tEnd dt : Q)
    (currentTime : Q) (sourceIndex : nat) (t y : list Q)
    : option (list Q * list Q) :=
  if Num.leb currentTime tEnd then
    match fuel with
    | O => None
    | S fuel' =>
        let sourceIndex :=
          advance_cursor (length rrTimes_s) rrTimes_s currentTime sourceIndex in
        let t0 := nth sourceIndex rrTimes_s 0 in
        let t1 := nth (sourceIndex + 1) rrTimes_s 0 in
        let y0 := nth sourceIndex rr_s 0 in
        let y1 := nth (sourceIndex + 1) rr_s 0 in
        let span := t1 - t0 in
        if Num.leb span 0
        then resample_loop fuel' rrTimes_s rr_s tEnd dt
               (currentTime + dt) sourceIndex t y
        else
          let alpha := (currentTime - t0) / span in
          let interpolated := y0 + alpha * (y1 - y0) in
          resample_loop fuel' rrTimes_s rr_s tEnd dt
            (currentTime + dt) sourceIndex
            (t ++ [currentTime]) (y ++ [interpolated])
    end
  else Some (t, y).

Definition resampleRrToUniform (fuel : nat) (rrTimes_s rr_s : list Q) (fs : Q)
    : option ResampledSignal :=
  if negb (length rrTimes_s =? length rr_s)%nat || (length rr_s <? 2)%nat
  then Some {| signal_fs := fs; signal_t := []; signal_y := [] |}
  else
    let dt := 1 / fs in
    let tStart := nth 0 rrTimes_s 0 in
    let tEnd := nth (length rrTimes_s - 1) rrTimes_s 0 in
    if Num.leb tEnd tStart
    then Some {| signal_fs := fs; signal_t := []; signal_y := [] |}
    else
      match resample_loop fuel rrTimes_s rr_s tEnd dt tStart 0 [] [] with
      | Some (t, y) => Some {| signal_fs := fs; signal_t := t; signal_y := y |}
      | None => None
      end.

(** The number of grid points between the first and the last timestamp: the
    iterations the [for] loop makes when [fs > 0]. *)
Definition resample_fuel (rrTimes_s : list Q) (fs : Q) : nat :=
  let tStart := nth 0 rrTimes_s 0 in
  let tEnd := nth (length rrTimes_s - 1) rrTimes_s 0 in
  S (Z.to_nat (Qfloor ((tEnd - tStart) * fs))).

(** [resampleRrToUniform] run to completion, for [fs > 0]. *)
Definition resampleRrToUniform_run (rrTimes_s rr_s : list Q) (fs : Q)
    : ResampledSignal :=
  match resampleRrToUniform (resample_fuel rrTimes_s fs) rrTimes_s rr_s fs with
  | Some r => r
  | None => {| signal_fs := fs; signal_t := []; signal_y := [] |}
  end.

(** The Hann window of [welchPsd]. *)
Definition hann_window `{MathLib} (usableLength : nat) : list Q :=
  map (fun i =>
         (1 # 2) * (1 - Math_cos ((2 * Math_PI * Num.of_nat i)
                                  / Num.of_nat (usableLength - 1))))
      (seq 0 usableLength).

(** The body of the loop over [k]: the power of bin [k] of one segment, by
    direct summation. *)
Definition bin_power `{MathLib} (segment window : list Q)
    (segmentMean fs windowPower : Q) (usableLength k : nat) : Q :=
  let '(re, im) :=
    fold_left
      (fun (acc : Q * Q) n =>
         let sample := (nth n segment 0 - segmentMean) * nth n window 0 in
         let angle := (2 * Math_PI * Num.of_nat k * Num.of_nat n)
                      / Num.of_nat usableLength in
         (fst acc + sample * Math_cos angle, snd acc - sample * Math_sin angle))
      (seq 0 usableLength) (0, 0) in
  (re * re + im * im) / (fs * windowPower).

(** The periodogram of the segment that starts at [start]. *)
Definition segment_powers `{MathLib} (signal window : list Q)
    (fs windowPower : Q) (usableLength bins start : nat) : list Q :=
  let segment :=
    slice signal (Z.of_nat start) (Z.of_nat (start + usableLength)) in
  let segmentMean := mean segment in
  map (bin_power segment window segmentMean fs windowPower usableLength)
      (seq 0 bins).

(** The loop over [start]; the state is [(accumulated, segmentCount)].
    [step >= 1], so [length signal + 1] iterations are always enough. *)
Fixpoint welch_loop `{MathLib} (fuel : nat) (signal window : list Q)
    (fs windowPower : Q) (usableLength bins step start : nat)
    (accumulated : list Q) (segmentCount : nat) : list Q * nat :=
  match fuel with
  | O => (accumulated, segmentCount)
  | S fuel' =>
      if (start + usableLength <=? length signal)%nat then
        let powers :=
          segment_powers signal window fs windowPower usableLength bins start in
        let accumulated :=
          map (fun k => nth k accumulated 0 + nth k powers 0) (seq 0 bins) in
        welch_loop fuel' signal window fs windowPower usableLength bins step
          (start + step) accumulated (segmentCount + 1)
      else (accumulated, segmentCount)
  end.

Definition welchPsd `{MathLib} (signal : list Q) (fs : Q)
    (segmentLength : nat) (overlap : Q) : PsdData :=
  let usableLength :=
    highestPowerOfTwo (Nat.min segmentLength (length signal)) in
  if (usableLength <? 16)%nat then {| psd_f := []; psd_p := [] |}
  else
    let step :=
      Z.to_nat (Z.max 1 (Num.floor (Num.of_nat usableLength * (1 - overlap)))) in
    let bins := (usableLength / 2 + 1)%nat in
    let window := hann_window usableLength in
    let windowPower :=
      fold_left (fun sum value => sum + value * value) window 0 in
    let '(accumulated, segmentCount) :=
      welch_loop (S (length signal)) signal window fs windowPower
        usableLength bins step 0 (repeat 0 bins) 0 in
    if (segmentCount =? 0)%nat then {| psd_f := []; psd_p := [] |}
    else
      {| psd_f :=
           map (fun k => (Num.of_nat k * fs) / Num.of_nat usableLength)
               (seq 0 bins);
         psd_p :=
           map (fun k =>
                  let power := nth k accumulated 0 / Num.of_nat segmentCount in
                  if (0 <? k)%nat && (k <? bins - 1)%nat
                  then power * 2 else power)
               (seq 0 bins) |}.

(** [segmentLength = 256] and [overlap = 0.5], the defaults. *)
Definition welchPsd_default `{MathLib} (signal : list Q) (fs : Q) : PsdData :=
  welchPsd signal fs 256 (1 # 2).

(** The starts of the full segments of a signal of [len] samples:
    [0, step, 2 step, ...] as long as [start + usableLength <= len]. *)
Definition segment_starts (len usableLength step : nat) : list nat :=
  if (usableLength <=? len)%nat
  then map (fun j => (j * step)%nat) (seq 0 ((len - usableLength) / step + 1))
  else [].

(** The sum over a list of naturals of a rational quantity. *)
Definition sum_over (g : nat -> Q) (l : list nat) : Q :=
  fold_right (fun j acc => g j + acc) 0 l.

(** ** src/analysis/psd.ts: integrateBand *)

(** One iteration of the loop of [integrateBand], at index [i >= 1]. *)
Definition integrateBand_step (psd : PsdData) (lowHz highHz : Q)
    (area : Q) (i : nat) : Q :=
  let f0 := nth (i - 1) (psd_f psd) 0 in
  let f1 := nth i (psd_f psd) 0 in
  if Num.ltb f1 lowHz || Num.ltb highHz f0 then area
  else
    let p0 := nth (i - 1) (psd_p psd) 0 in
    let p1 := nth i (psd_p psd) 0 in
    let dx := f1 - f0 in
    if Num.ltb 0 dx then area + ((p0 + p1) / 2) * dx else area.

Definition integrateBand (psd : PsdData) (lowHz highHz : Q) : Q :=
  if (length (psd_f psd) =? 0)%nat
     || negb (length (psd_f psd) =? length (psd_p psd))%nat
  then 0
  else fold_left (integrateBand_step psd lowHz highHz)
         (seq 1 (length (psd_f psd) - 1)) 0.

(** The area that index [i] adds to the band [lowHz, highHz], the sum of
    these areas over a list of indices, and the indices that the loop of
    [integrateBand] visits (none on an empty or malformed PSD). *)
Definition band_term (psd : PsdData) (lowHz highHz : Q) (i : nat) : Q :=
  integrateBand_step psd lowHz highHz 0 i.

Definition band_sum (psd : PsdData) (lowHz highHz : Q) (l : list nat) : Q :=
  fold_right (fun i acc => band_term psd lowHz highHz i + acc) 0 l.

Definition band_indices (psd : PsdData) : list nat :=
  if (length (psd_f psd) =? 0)%nat
     || negb (length (psd_f psd) =? length (psd_p psd))%nat
  then [] else seq 1 (length (psd_f psd) - 1).

(** ** src/analysis/coherence.ts *)

Definition LF_LOW_HZ : Q := 4 # 100.
Definition HF_HIGH_HZ : Q := 4 # 10.
Definition TARGET_HALF_BAND_HZ : Q := 15 # 1000.

(** The peak scan of [computeCoherence]: the state is
    [(peakFrequencyHz, peakPower)]. *)
Definition peak_step (psd : PsdData) (st : Q * Q) (i : nat) : Q * Q :=
  let frequency := nth i (psd_f psd) 0 in
  if Num.ltb frequency LF_LOW_HZ || Num.ltb HF_HIGH_HZ frequency then st
  else
    let power := nth i (psd_p psd) 0 in
    if Num.ltb (snd st) power then (frequency, power) else st.

Definition computeCoherence (psd : PsdData) (targetHz : Q) : CoherenceMetrics :=
  let totalPower := integrateBand psd LF_LOW_HZ HF_HIGH_HZ in
  let targetLow := Qmax LF_LOW_HZ (targetHz - TARGET_HALF_BAND_HZ) in
  let targetHigh := Qmin HF_HIGH_HZ (targetHz + TARGET_HALF_BAND_HZ) in
  let targetBandPower := integrateBand psd targetLow targetHigh in
  let peak := fold_left (peak_step psd) (seq 0 (length (psd_f psd))) (0, 0) in
  {| coherenceScore :=
       if Num.ltb 0 totalPower then targetBandPower / totalPower else 0;
     peakFrequencyHz := fst peak;
     peakPower := snd peak;
     targetBandPower := targetBandPower |}.

(** ** src/analysis/worker.ts *)

Definition analyze `{MathLib} (rrTimes_s rr_s : list Num.number) (targetHz : Q)
    : result AnalysisResult :=
  match cleanRrSeries rrTimes_s rr_s no_options with
  | Throw message => Throw message
  | Ok cleaned =>
      let timeMetrics := computeTimeDomain (cleaned_rr_s cleaned) in
      let resampled :=
        resampleRrToUniform_run (cleaned_rrTimes_s cleaned)
          (cleaned_rr_s cleaned) 4 in
      let psd := welchPsd_default (signal_y resampled) (signal_fs resampled) in
      let coherence := computeCoherence psd targetHz in
      let lfPower := integrateBand psd (4 # 100) (15 # 100) in
      let hfPower := integrateBand psd (15 # 100) (4 # 10) in
      let totalPower := integrateBand psd (4 # 100) (4 # 10) in
      Ok {| result_metrics :=
              {| m_time := timeMetrics; m_coherence := coherence;
                 lfPower := lfPower; hfPower := hfPower;
                 totalPower := totalPower |};
            result_psd := psd;
            result_cleaned := cleaned |}
  end.

(** The worker's [message] listener: the message it posts back, if any. *)
Definition onmessage `{MathLib} (message : WorkerAnalyzeMessage)
    : option WorkerResponseMessage :=
  if negb (String.eqb (request_type message) "analyze") then None
  else
    match analyze (payload_rrTimes_s (request_payload message))
                  (payload_rr_s (request_payload message))
                  (payload_targetHz (request_payload message)) with
    | Ok result => Some (WorkerResultMessage result)
    | Throw message => Some (WorkerErrorMessage message)
    end.

(** ** The App component *)

(** [median] is declared a second time there, word for word the one of
    artifact.ts. *)

Definition CALIBRATION_FREQUENCIES_HZ : list Q :=
  [7 # 100; 8 # 100; 9 # 100; 1 # 10; 11 # 100; 12 # 100].
Definition CALIBRATION_STEP_SEC : Q := 20.

Record CalibrationSegment : Type := mkSegment {
  segment_frequencyHz : Q;
  segment_rrTimes_s : list Num.number;
  segment_rr_s : list Num.number
}.

(** The loop of one segment; the state is [(times, values)]. *)
Definition segment_step (rrTimes_s rr_s : list Num.number) (start stop : Q)
    (st : list Num.number * list Num.number) (i : nat)
    : list Num.number * list Num.number :=
  let t := nth i rrTimes_s Num.NaN in
  if Num.ge_bound t start && Num.le_bound t stop
  then (fst st ++ [t], snd st ++ [nth i rr_s Num.NaN])
  else st.

Definition calibration_segment (rrTimes_s rr_s : list Num.number)
    (stepSec : Q) (frequencyHz : Q) (index : nat) : CalibrationSegment :=
  let start := Num.of_nat index * stepSec in
  let stop := Num.of_nat (index + 1) * stepSec in
  let '(times, values) :=
    fold_left (segment_step rrTimes_s rr_s start stop)
      (seq 0 (length rr_s)) ([], []) in
  {| segment_frequencyHz := frequencyHz;
     segment_rrTimes_s := times;
     segment_rr_s := values |}.

Definition calculateCalibrationSegments (rrTimes_s rr_s : list Num.number)
    (frequenciesHz : list Q) (stepSec : Q) : list CalibrationSegment :=
  map (fun '(index, frequencyHz) =>
         calibration_segment rrTimes_s rr_s stepSec frequencyHz index)
      (combine (seq 0 (length frequenciesHz)) frequenciesHz).

Definition clamp (value min max : Q) : Q := Qmin max (Qmax min value).

Record SignalQualityState : Type := mkQuality {
  quality_score : Z;
  quality_label : string
}.

(** [rrWindow_s.filter((rr) => rr >= 0.3 && rr <= 2)]: only finite values
    pass. *)
Definition in_range (rrWindow_s : list Num.number) : list Q :=
  flat_map (fun rr =>
              match rr with
              | Num.Finite q =>
                  if Num.leb (3 # 10) q && Num.leb q 2 then [q] else []
              | _ => []
              end) rrWindow_s.

(** The locals of [computeSignalQuality], one definition each. *)
Definition quality_threshold (inRange : list Q) : Q :=
  let med := median inRange in
  let deviations := map (fun rr => Qabs (rr - med)) inRange in
  let mad := median deviations in
  if Num.ltb 0 mad then 3 * (14826 # 10000) * mad else 18 # 100.

(** The test of the outlier filter, [Math.abs(rr - med) > threshold]. *)
Definition quality_isOutlier (inRange : list Q) (rr : Q) : bool :=
  let med := median inRange in
  let threshold := quality_threshold inRange in
  Num.ltb threshold (Qabs (rr - med)).

Definition quality_outlierCount (inRange : list Q) : nat :=
  length (filter (quality_isOutlier inRange) inRange).

Definition quality_outlierRatio (inRange : list Q) : Q :=
  if (0 <? length inRange)%nat
  then Num.of_nat (quality_outlierCount inRange) / Num.of_nat (length inRange)
  else 1.

Definition quality_validRatio (rrWindow_s : list Num.number) : Q :=
  Num.of_nat (length (in_range rrWindow_s)) / Num.of_nat (length rrWindow_s).

Definition quality_freshnessScore (staleMs : Q) : Q :=
  clamp (1 - staleMs / 5000) 0 1.

Definition quality_stabilityScore `{MathLib} (inRange : list Q) : Q :=
  let mean :=
    fold_left (fun sum rr => sum + rr) inRange 0
    / Num.of_nat (length inRange) in
  let variance :=
    fold_left (fun sum rr => let delta := rr - mean in sum + delta * delta)
      inRange 0
    / Num.of_nat (length inRange) in
  let sd := Math_sqrt variance in
  let cv := if Num.ltb 0 mean then sd / mean else 1 in
  clamp (1 - cv / (25 # 100)) 0 1.

Definition computeSignalQuality `{MathLib} (rrWindow_s : list Num.number)
    (staleMs : Q) : SignalQualityState :=
  if (length rrWindow_s <? 6)%nat then
    if Num.ltb 8000 staleMs
    then {| quality_score := 0; quality_label := "No RR Signal" |}
    else {| quality_score := 0; quality_label := "Searching" |}
  else
    let inRange := in_range rrWindow_s in
    if (length inRange =? 0)%nat
    then {| quality_score := 0; quality_label := "Poor" |}
    else
      let validRatio := quality_validRatio rrWindow_s in
      let outlierRatio := quality_outlierRatio inRange in
      let stabilityScore := quality_stabilityScore inRange in
      let freshnessScore := quality_freshnessScore staleMs in
      let rawScore :=
        100 * ((45 # 100) * validRatio + (2 # 10) * (1 - outlierRatio)
               + (2 # 10) * stabilityScore + (15 # 100) * freshnessScore) in
      let score :=
        if Num.ltb 8000 staleMs then 0%Z
        else Num.round (clamp rawScore 0 100) in
      if (85 <=? score)%Z
      then {| quality_score := score; quality_label := "Excellent" |}
      else if (70 <=? score)%Z
      then {| quality_score := score; quality_label := "Good" |}
      else if (50 <=? score)%Z
      then {| quality_score := score; quality_label := "Fair" |}
      else if (0 <? score)%Z
      then {| quality_score := score; quality_label := "Poor" |}
      else if Num.ltb 8000 staleMs
      then {| quality_score := score; quality_label := "No RR Signal" |}
      else {| quality_score := score; quality_label := "Searching" |}.

(** A promise, once the event loop has drained: fulfilled, rejected with an
    [Error], or never settled. *)
Inductive Promise (A : Type) : Type :=
| Fulfilled (a : A)
| Rejected (message : string)
| Pending.
Arguments Fulfilled {A} a.
Arguments Rejected {A} message.
Arguments Pending {A}.

(** [workerRef.current]: [None] is [null]; a worker answers a posted message
    with its listener. *)
Definition Worker : Type := WorkerAnalyzeMessage -> option WorkerResponseMessage.

Definition analyzeInWorker (worker : option Worker) (payload : AnalyzePayload)
    : Promise AnalysisResult :=
  match worker with
  | None => Rejected "analysis worker is not ready"
  | Some worker =>
      let request := {| request_type := "analyze"; request_payload := payload |} in
      match worker request with
      | Some (WorkerResultMessage result) => Fulfilled result
      | Some (WorkerErrorMessage message) => Rejected message
      | None => Pending
      end
  end.

(** The three objects that the loop of [performCalibrationSummary] builds
    for a segment: the point of a segment with too few samples, the payload
    sent to the worker, and the point made of the worker's result. *)
Definition zero_point (segment : CalibrationSegment) : CalibrationPoint :=
  {| frequencyHz := segment_frequencyHz segment;
     breathsPerMin := segment_frequencyHz segment * 60;
     score := 0;
     point_peakFrequencyHz := 0;
     point_peakPower := 0 |}.

Definition segment_payload (segment : CalibrationSegment) : AnalyzePayload :=
  {| payload_rrTimes_s := segment_rrTimes_s segment;
     payload_rr_s := segment_rr_s segment;
     payload_targetHz := segment_frequencyHz segment |}.

Definition scored_point (segment : CalibrationSegment)
    (result : AnalysisResult) : CalibrationPoint :=
  {| frequencyHz := segment_frequencyHz segment;
     breathsPerMin := segment_frequencyHz segment * 60;
     score := coherenceScore (m_coherence (result_metrics result));
     point_peakFrequencyHz :=
       peakFrequencyHz (m_coherence (result_metrics result));
     point_peakPower := peakPower (m_coherence (result_metrics result)) |}.

(** The loop over the segments of [performCalibrationSummary].  The first
    component logs the payloads posted to the worker, in order; the loop
    stops at the first request that does not come back with a result. *)
Fixpoint scan_segments (worker : option Worker)
    (segments : list CalibrationSegment)
    (posted : list AnalyzePayload) (scanned : list CalibrationPoint)
    : list AnalyzePayload * Promise (list CalibrationPoint) :=
  match segments with
  | [] => (posted, Fulfilled scanned)
  | segment :: rest =>
      if (length (segment_rr_s segment) <? 16)%nat then
        scan_segments worker rest posted (scanned ++ [zero_point segment])
      else
        let posted' :=
          match worker with
          | Some _ => posted ++ [segment_payload segment]
          | None => posted
          end in
        match analyzeInWorker worker (segment_payload segment) with
        | Fulfilled result =>
            scan_segments worker rest posted'
              (scanned ++ [scored_point segment result])
        | Rejected message => (posted', Rejected message)
        | Pending => (posted', Pending)
        end
  end.

(** The reduction that selects [best]. *)
Definition best_step (current : option CalibrationPoint)
    (point : CalibrationPoint) : option CalibrationPoint :=
  match current with
  | None => Some point
  | Some current =>
      if Num.ltb (score current) (score point) then Some point
      else Some current
  end.

(** The end of [performCalibrationSummary]: the summary of the scanned
    points. *)
Definition summarize (scanned : list CalibrationPoint) : CalibrationSummary :=
  let best := fold_left best_step scanned None in
  {| scanned := scanned; best := best |}.

Definition performCalibrationSummary (worker : option Worker)
    (rrTimes_s rr_s : list Num.number)
    : list AnalyzePayload * Promise CalibrationSummary :=
  let segments :=
    calculateCalibrationSegments rrTimes_s rr_s
      CALIBRATION_FREQUENCIES_HZ CALIBRATION_STEP_SEC in
  match scan_segments worker segments [] [] with
  | (posted, Fulfilled scanned) => (posted, Fulfilled (summarize scanned))
  | (posted, Rejected message) => (posted, Rejected message)
  | (posted, Pending) => (posted, Pending)
  end.

(** [extractRr]: the finite intervals of the raw events, on a cumulative
    time axis.  The state of the loops is [(elapsed, rrTimes_s, rr_s)]. *)
Record RawEvent : Type := mkEvent {
  event_t_ms : Q;
  event_hr : option Q;
  event_rr_s : option (list Num.number)
}.

Definition extract_step (st : Q * list Q * list Q) (rrValue : Num.number)
    : Q * list Q * list Q :=
  match rrValue with
  | Num.Finite value =>
      let '(elapsed, rrTimes_s, rr_s) := st in
      let elapsed := elapsed + value in
      (elapsed, rrTimes_s ++ [elapsed], rr_s ++ [value])
  | _ => st
  end.

Definition extractRr (rawEvents : list RawEvent) : list Q * list Q :=
  let '(_, rrTimes_s, rr_s) :=
    fold_left
      (fun st event =>
         fold_left extract_step
           (match event_rr_s event with Some l => l | None => [] end) st)
      rawEvents (0, [], []) in
  (rrTimes_s, rr_s).

(** ** src/utils/ringBuffer.ts *)

(** [array[index]] and [array[index] = value] on a JavaScript array: a read
    outside the array gives [undefined], a write past the end extends the
    array with holes. *)
Definition array_get {A : Type} (l : list (option A)) (index : Z) : option A :=
  if (index <? 0)%Z then None else nth (Z.to_nat index) l None.

Fixpoint list_set {A : Type} (l : list A) (n : nat) (v : A) : list A :=
  match l, n with
  | [], _ => []
  | _ :: l', O => v :: l'
  | x :: l', S n' => x :: list_set l' n' v
  end.

Definition array_set {A : Type} (l : list (option A)) (index : Z) (v : A)
    : list (option A) :=
  if (index <? 0)%Z then l
  else if (index <? Z.of_nat (length l))%Z
  then list_set l (Z.to_nat index) (Some v)
  else l ++ repeat None (Z.to_nat index - length l) ++ [Some v].

Record RingBuffer (T : Type) : Type := mkRing {
  ring_data : list (option T);
  ring_writeIndex : Z;
  ring_itemCount : Z;
  ring_capacity : Z
}.
Arguments mkRing {T}.
Arguments ring_data {T}.
Arguments ring_writeIndex {T}.
Arguments ring_itemCount {T}.
Arguments ring_capacity {T}.

(** The constructor. *)
Definition RingBuffer_new (T : Type) (capacity : Z) : result (RingBuffer T) :=
  if (capacity <=? 0)%Z
  then Throw "ring buffer capacity must be positive"
  else Ok {| ring_data := repeat None (Z.to_nat capacity);
             ring_writeIndex := 0;
             ring_itemCount := 0;
             ring_capacity := capacity |}.

Definition RingBuffer_clear {T : Type} (b : RingBuffer T) : RingBuffer T :=
  {| ring_data := repeat None (length (ring_data b));
     ring_writeIndex := 0;
     ring_itemCount := 0;
     ring_capacity := ring_capacity b |}.

Definition RingBuffer_push {T : Type} (b : RingBuffer T) (item : T)
    : RingBuffer T :=
  {| ring_data := array_set (ring_data b) (ring_writeIndex b) item;
     ring_writeIndex := Z.rem (ring_writeIndex b + 1) (ring_capacity b);
     ring_itemCount := Z.min (ring_itemCount b + 1) (ring_capacity b);
     ring_capacity := ring_capacity b |}.

Definition RingBuffer_toArray {T : Type} (b : RingBuffer T) : list T :=
  if (ring_itemCount b =? 0)%Z then []
  else
    let start :=
      Z.rem (ring_writeIndex b - ring_itemCount b + ring_capacity b)
            (ring_capacity b) in
    flat_map
      (fun i =>
         let index := Z.rem (start + Z.of_nat i) (ring_capacity b) in
         match array_get (ring_data b) index with
         | Some value => [value]
         | None => []
         end)
      (seq 0 (Z.to_nat (ring_itemCount b))).

Definition RingBuffer_size {T : Type} (b : RingBuffer T) : Z :=
  ring_itemCount b.

(** ** src/ble/parseHrMeasurement.ts *)

Record ParsedHeartRateMeasurement : Type := mkParsed {
  parsed_hr : Z;
  parsed_rr_s : list Q
}.

(** A [DataView] is its bytes.  [getUint8] and [getUint16] (little endian)
    throw a [RangeError] when they would read past the end. *)
Definition DataView : Type := list Byte.byte.

Definition byteLength (value : DataView) : Z := Z.of_nat (length value).

Definition byte_at (value : DataView) (offset : Z) : Z :=
  Z.of_N (Byte.to_N (nth (Z.to_nat offset) value Byte.x00)).

Definition getUint8 (value : DataView) (offset : Z) : result Z :=
  if (offset <? 0)%Z || (byteLength value <? offset + 1)%Z
  then Throw "Offset is outside the bounds of the DataView"
  else Ok (byte_at value offset).

Definition getUint16 (value : DataView) (offset : Z) : result Z :=
  if (offset <? 0)%Z || (byteLength value <? offset + 2)%Z
  then Throw "Offset is outside the bounds of the DataView"
  else Ok (byte_at value offset + 256 * byte_at value (offset + 1))%Z.

(** The [while] loop over the RR words; every iteration moves [offset] two
    bytes on, so [byteLength] iterations are enough. *)
Fixpoint rr_loop (fuel : nat) (value : DataView) (offset : Z) (rr_s : list Q)
    : result (list Q) :=
  match fuel with
  | O => Ok rr_s
  | S fuel' =>
      if (offset + 1 <? byteLength value)%Z then
        match getUint16 value offset with
        | Throw message => Throw message
        | Ok rr1024 =>
            rr_loop fuel' value (offset + 2)
              (rr_s ++ [inject_Z rr1024 / 1024])
        end
      else Ok rr_s
  end.

Definition parseHrMeasurement (value : DataView)
    : result ParsedHeartRateMeasurement :=
  if (byteLength value <? 2)%Z
  then Throw "heart rate packet is too short"
  else
    match getUint8 value 0 with
    | Throw message => Throw message
    | Ok flags =>
        let hrIsUint16 := (Z.land flags 1 =? 1)%Z in
        let hasEnergyExpended := (Z.land flags 8 =? 8)%Z in
        let hasRrIntervals := (Z.land flags 16 =? 16)%Z in
        let offset := 1%Z in
        let read_hr :=
          if hrIsUint16 then
            if (byteLength value <=? offset + 1)%Z
            then Throw "invalid heart rate packet: missing uint16 HR value"
            else match getUint16 value offset with
                 | Throw message => Throw message
                 | Ok hr => Ok (hr, (offset + 2)%Z)
                 end
          else match getUint8 value offset with
               | Throw message => Throw message
               | Ok hr => Ok (hr, (offset + 1)%Z)
               end in
        match read_hr with
        | Throw message => Throw message
        | Ok (hr, offset) =>
            let offset :=
              if hasEnergyExpended then (offset + 2)%Z else offset in
            let rr :=
              if hasRrIntervals
              then rr_loop (length value) value offset []
              else Ok [] in
            match rr with
            | Throw message => Throw message
            | Ok rr_s => Ok {| parsed_hr := hr; parsed_rr_s := rr_s |}
            end
        end
    end.

(** ** computeSignalQuality in double precision *)

(** The score of [computeSignalQuality] is a [Math.round], which is not
    continuous: rounding the exact composite and rounding its double
    evaluation differ when the exact value sits on a half.  This module
    follows the function operation by operation in IEEE 754 binary64, the
    arithmetic of a JavaScript [number]. *)
Module F64.

Import Stdlib.Floats.FloatClass Stdlib.Floats.PrimFloat.
Import Stdlib.Floats.FloatOps Stdlib.Floats.SpecFloat.

Set Warnings "-inexact-float".

(** An array length, or a count, as a number. *)
Definition of_nat (n : nat) : float := of_uint63 (Uint63.of_Z (Z.of_nat n)).

(** An integer below 2^53 in absolute value, as a number. *)
Definition of_Z (n : Z) : float :=
  if (n <? 0)%Z then opp (of_uint63 (Uint63.of_Z (- n)))
  else of_uint63 (Uint63.of_Z n).

(** [Math.max] and [Math.min] of two numbers: NaN when either is NaN, and
    +0 above -0. *)
Definition Math_max (a b : float) : float :=
  if is_nan a || is_nan b then nan
  else if (a <? b)%float then b
  else if (b <? a)%float then a
  else match classify a with NZero => b | _ => a end.

Definition Math_min (a b : float) : float :=
  if is_nan a || is_nan b then nan
  else if (a <? b)%float then a
  else if (b <? a)%float then b
  else match classify a with PZero => b | _ => a end.

(** [Math.round]: the integer nearest to [x], halves rounded towards
    +infinity; computed exactly on the mantissa and exponent of [x].  A
    number with a non-negative exponent is an integer already; zeros,
    infinities and NaN are returned as they are. *)
Definition Math_round (x : float) : float :=
  match Prim2SF x with
  | S754_finite s m e =>
      if (0 <=? e)%Z then x
      else
        let sm := if s then Z.neg m else Z.pos m in
        let d := (2 ^ (- e))%Z in
        let n := ((2 * sm + d) / (2 * d))%Z in
        if (n =? 0)%Z then (if s then neg_zero else zero) else of_Z n
  | _ => x
  end.

(** [[...values].sort((a, b) => a - b)]. *)
Fixpoint sort_insert (x : float) (l : list float) : list float :=
  match l with
  | [] => [x]
  | y :: l' => if (0 <? x - y)%float then y :: sort_insert x l' else x :: l
  end.

Definition sort (values : list float) : list float :=
  fold_right sort_insert [] values.

Definition clamp (value min max : float) : float :=
  Math_min max (Math_max min value).

Definition median (values : list float) : float :=
  if (length values =? 0)%nat then 0%float
  else
    let sorted := sort values in
    let mid := (length sorted / 2)%nat in
    if (length sorted mod 2 =? 0)%nat
    then ((nth (mid - 1) sorted nan + nth mid sorted nan) / 2)%float
    else nth mid sorted nan.

Record SignalQualityState : Type := mkQuality {
  quality_score : float;
  quality_label : string
}.

Definition in_range (rrWindow_s : list float) : list float :=
  filter (fun rr => (0.3 <=? rr)%float && (rr <=? 2)%float) rrWindow_s.

(** The locals of [computeSignalQuality], one definition each. *)
Definition quality_threshold (inRange : list float) : float :=
  let med := median inRange in
  let deviations := map (fun rr => abs (rr - med)%float) inRange in
  let mad := median deviations in
  if (0 <? mad)%float then (3 * 1.4826 * mad)%float else 0.18%float.

Definition quality_outlierCount (inRange : list float) : nat :=
  let med := median inRange in
  let threshold := quality_threshold inRange in
  length (filter (fun rr => (threshold <? abs (rr - med))%float) inRange).

Definition quality_validRatio (rrWindow_s : list float) : float :=
  (of_nat (length (in_range rrWindow_s)) / of_nat (length rrWindow_s))%float.

Definition quality_outlierRatio (inRange : list float) : float :=
  if (0 <? length inRange)%nat
  then (of_nat (quality_outlierCount inRange) / of_nat (length inRange))%float
  else 1%float.

Definition quality_stabilityScore (inRange : list float) : float :=
  let mean :=
    (fold_left (fun sum rr => sum + rr) inRange 0
     / of_nat (length inRange))%float in
  let variance :=
    (fold_left
       (fun sum rr => let delta := (rr - mean)%float in sum + delta * delta)
       inRange 0
     / of_nat (length inRange))%float in
  let sd := sqrt variance in
  let cv := if (0 <? mean)%float then (sd / mean)%float else 1%float in
  clamp (1 - cv / 0.25)%float 0 1.

Definition quality_freshnessScore (staleMs : float) : float :=
  clamp (1 - staleMs / 5000)%float 0 1.

Definition computeSignalQuality (rrWindow_s : list float) (staleMs : float)
    : SignalQualityState :=
  if (length rrWindow_s <? 6)%nat then
    if (8000 <? staleMs)%float
    then {| quality_score := 0; quality_label := "No RR Signal" |}
    else {| quality_score := 0; quality_label := "Searching" |}
  else
    let inRange := in_range rrWindow_s in
    if (length inRange =? 0)%nat
    then {| quality_score := 0; quality_label := "Poor" |}
    else
      let validRatio := quality_validRatio rrWindow_s in
      let outlierRatio := quality_outlierRatio inRange in
      let stabilityScore := quality_stabilityScore inRange in
      let freshnessScore := quality_freshnessScore staleMs in
      let rawScore :=
        (100 * (0.45 * validRatio + 0.2 * (1 - outlierRatio)
                + 0.2 * stabilityScore + 0.15 * freshnessScore))%float in
      let score :=
        if (8000 <? staleMs)%float then 0%float
        else Math_round (clamp rawScore 0 100) in
      if (85 <=? score)%float
      then {| quality_score := score; quality_label := "Excellent" |}
      else if (70 <=? score)%float
      then {| quality_score := score; quality_label := "Good" |}
      else if (50 <=? score)%float
      then {| quality_score := score; quality_label := "Fair" |}
      else if (0 <? score)%float
      then {| quality_score := score; quality_label := "Poor" |}
      else if (8000 <? staleMs)%float
      then {| quality_score := score; quality_label := "No RR Signal" |}
      else {| quality_score := score; quality_label := "Searching" |}.

(** The weighted composite of the window, in percent, as the doubles give
    it. *)
Definition quality_composite (rrWindow_s : list float) (staleMs : float)
    : float :=
  (100 * (0.45 * quality_validRatio rrWindow_s
          + 0.2 * (1 - quality_outlierRatio (in_range rrWindow_s))
          + 0.2 * quality_stabilityScore (in_range rrWindow_s)
          + 0.15 * quality_freshnessScore staleMs))%float.

(** Five steady beats and a 5 s gap, 6 s after the last beat. *)
Definition gap_window : list float := [1; 1; 1; 1; 1; 5]%float.

Set Warnings "inexact-float".

End F64.

(** ** Vocabulary of the statements *)

(** Strictly increasing frequencies. *)
Fixpoint strictly_increasing (l : list Q) : bool :=
  match l with
  | x :: (y :: _) as l' => Num.ltb x y && strictly_increasing l'
  | _ => true
  end.

(** [x] lies between the first and the last frequency of the PSD. *)
Definition in_frequency_range (psd : PsdData) (x : Q) : bool :=
  Num.leb (hd 0 (psd_f psd)) x && Num.leb x (last (psd_f psd) 0).

(** Three bins at 0, 1 and 2 Hz with unit power. *)
Definition flat_psd : PsdData :=
  {| psd_f := [0; 1; 2]; psd_p := [1; 1; 1] |}.

(** Bins every 0.1 Hz, the power concentrated at 0.1 Hz. *)
Definition peaked_psd : PsdData :=
  {| psd_f := [0; 1 # 10; 2 # 10; 3 # 10; 4 # 10; 5 # 10];
     psd_p := [1; 8; 2; 1; 1; 1] |}.

(** A raw sample passes the range filter when timestamp and value are
    finite and the value lies in [[lo, hi]]. *)
Definition passes_range (lo hi : Q) (sample : Num.number * Num.number) : bool :=
  match sample with
  | (Num.Finite _, Num.Finite value) => Num.leb lo value && Num.leb value hi
  | _ => false
  end.

(** A cleaned sample, seen as a raw one. *)
Definition raw_sample (sample : Q * Q) : Num.number * Num.number :=
  (Num.Finite (fst sample), Num.Finite (snd sample)).

(** What the first loop of [cleanRrSeries] pushes for one raw sample. *)
Definition range_pick (config : ArtifactConfig)
    (sample : Num.number * Num.number) : list (Q * Q) :=
  match snd sample, fst sample with
  | Num.Finite value, Num.Finite time =>
      if Num.ltb value (minRrSec config) || Num.ltb (maxRrSec config) value
      then [] else [(time, value)]
  | _, _ => []
  end.

(** [best] is the first point of [scanned] with the greatest score: every
    point before it scores strictly less and no point after it scores more;
    it is absent only when nothing was scanned. *)
Definition first_maximum (scanned : list CalibrationPoint)
    (best : option CalibrationPoint) : Prop :=
  match best with
  | None => scanned = []
  | Some b =>
      exists before after : list CalibrationPoint,
        scanned = before ++ b :: after
        /\ Forall (fun point => score point < score b) before
        /\ Forall (fun point => score point <= score b) after
  end.

(** Rational stand-ins for [Math], precise enough to run examples:
    a square root by integer square root of the value scaled by 10^12,
    Taylor polynomials for cosine and sine, 355/113 for pi. *)
Definition approxMath : MathLib :=
  {| Math_sqrt := fun x =>
       inject_Z (Z.sqrt (Qfloor (x * inject_Z (10 ^ 12)))) / inject_Z (10 ^ 6);
     Math_cos := fun x =>
       1 - x * x / 2 + x * x * x * x / 24 - x * x * x * x * x * x / 720;
     Math_sin := fun x =>
       x - x * x * x / 6 + x * x * x * x * x / 120;
     Math_PI := 355 # 113 |}.

(** A segment with fewer than 16 raw samples. *)
Definition short_segment (segment : CalibrationSegment) : bool :=
  (length (segment_rr_s segment) <? 16)%nat.

(** The point scanned for a segment: at the segment's frequency, and
    zero-valued when the segment is short. *)
Definition point_of_segment (segment : CalibrationSegment)
    (point : CalibrationPoint) : Prop :=
  frequencyHz point = segment_frequencyHz segment
  /\ breathsPerMin point = segment_frequencyHz segment * 60
  /\ (short_segment segment = true ->
      score point = 0
      /\ point_peakFrequencyHz point = 0
      /\ point_peakPower point = 0).

(** Beats one second apart: [n] samples at times [start + 1, ..., start + n]. *)
Definition steady_times (start n : nat) : list Num.number :=
  map (fun i => Num.Finite (Num.of_nat i)) (seq (start + 1) n).

Definition steady_values (n : nat) : list Num.number :=
  repeat (Num.Finite 1) n.

(** The starts that the loop of [welchPsd] visits from [start] on. *)
Fixpoint loop_starts (fuel len usableLength step start : nat) : list nat :=
  match fuel with
  | O => []
  | S fuel' =>
      if (start + usableLength <=? len)%nat
      then start :: loop_starts fuel' len usableLength step (start + step)
      else []
  end.

(** Single-sided scaling: every bin but the first and the last counts
    twice. *)
Definition bin_scale (bins k : nat) : Q :=
  if (0 <? k)%nat && (k <? bins - 1)%nat then 2 else 1.

(** The median absolute deviation of a window. *)
Definition window_mad (inRange : list Q) : Q :=
  median (map (fun rr => Qabs (rr - median inRange)) inRange).

(** The weighted composite of the signal-quality monitor, in percent. *)
Definition quality_composite `{MathLib} (rrWindow_s : list Num.number)
    (staleMs : Q) : Q :=
  100 * ((45 # 100) * quality_validRatio rrWindow_s
         + (20 # 100) * (1 - quality_outlierRatio (in_range rrWindow_s))
         + (20 # 100) * quality_stabilityScore (in_range rrWindow_s)
         + (15 # 100) * quality_freshnessScore staleMs).

(** Five steady beats and a late one. *)
Definition late_beat_window : list Q := [1; 1; 1; 1; 1; 2].

(** Five regular beats with an implausible 5 s interval and a NaN among
    them, on the cumulative time axis. *)
Definition scenario_times : list Num.number :=
  [Num.Finite (80 # 100); Num.Finite (160 # 100); Num.Finite (242 # 100);
   Num.Finite (742 # 100); Num.Finite (820 # 100); Num.NaN;
   Num.Finite (901 # 100)].

Definition scenario_values : list Num.number :=
  [Num.Finite (80 # 100); Num.Finite (80 # 100); Num.Finite (82 # 100);
   Num.Finite 5; Num.Finite (78 # 100); Num.NaN; Num.Finite (81 # 100)].

(** Four scanned points, two of them tied for the best score. *)
Definition tied_points : list CalibrationPoint :=
  map (fun '(frequency, value) =>
         {| frequencyHz := frequency; breathsPerMin := frequency * 60;
            score := value; point_peakFrequencyHz := frequency;
            point_peakPower := 1 |})
      [(7 # 100, 1 # 4); (8 # 100, 3 # 4); (9 # 100, 3 # 4); (1 # 10, 1 # 2)].

(** A frequency of the band 0.04-0.4 Hz. *)
Definition in_band (frequency : Q) : Prop :=
  LF_LOW_HZ <= frequency <= HF_HIGH_HZ.

(** [(frequency, power)] is the outcome of the peak scan over the first [n]
    bins: it is no smaller than any bin of the band, and it is either the
    initial (0, 0) or the first bin of the band with the greatest power. *)
Definition peak_of (psd : PsdData) (n : nat) (peak : Q * Q) : Prop :=
  0 <= snd peak
  /\ (forall i, (i < n)%nat -> in_band (nth i (psd_f psd) 0) ->
        nth i (psd_p psd) 0 <= snd peak)
  /\ (peak = (0, 0)
      \/ exists i, (i < n)%nat
           /\ in_band (nth i (psd_f psd) 0)
           /\ peak = (nth i (psd_f psd) 0, nth i (psd_p psd) 0)
           /\ 0 < nth i (psd_p psd) 0
           /\ forall j, (j < i)%nat -> in_band (nth j (psd_f psd) 0) ->
                nth j (psd_p psd) 0 < nth i (psd_p psd) 0).

(** A raw sample lies in the [index]-th calibration step when its timestamp
    is finite and within [[index * stepSec, (index + 1) * stepSec]]. *)
Definition in_step (stepSec : Q) (index : nat)
    (sample : Num.number * Num.number) : bool :=
  Num.ge_bound (fst sample) (Num.of_nat index * stepSec)
  && Num.le_bound (fst sample) (Num.of_nat (index + 1) * stepSec).

(** Running sums: [acc + x1], [acc + x1 + x2], ... *)
Fixpoint running_sums (acc : Q) (l : list Q) : list Q :=
  match l with
  | [] => []
  | x :: l' => (acc + x) :: running_sums (acc + x) l'
  end.

(** The finite values of an array, and of the RR arrays of a list of events,
    in order. *)
Definition finite_values (l : list Num.number) : list Q :=
  flat_map (fun x => match x with Num.Finite q => [q] | _ => [] end) l.

Definition finite_intervals (rawEvents : list RawEvent) : list Q :=
  flat_map
    (fun event =>
       finite_values (match event_rr_s event with Some l => l | None => [] end))
    rawEvents.

(** The buffer [b] of capacity [capacity] has seen the pushes [history],
    oldest first: the write index and the item count follow the number of
    pushes, and each of the last [capacity] items sits in the slot of its
    rank. *)
Definition ring_holds {T : Type} (capacity : Z) (b : RingBuffer T)
    (history : list T) : Prop :=
  ring_capacity b = capacity
  /\ (0 < capacity)%Z
  /\ length (ring_data b) = Z.to_nat capacity
  /\ ring_writeIndex b = (Z.of_nat (length history) mod capacity)%Z
  /\ ring_itemCount b = Z.min (Z.of_nat (length history)) capacity
  /\ forall k x,
       nth_error history k = Some x ->
       (Z.of_nat (length history) - Z.of_nat k <= capacity)%Z ->
       nth (Z.to_nat (Z.of_nat k mod capacity)) (ring_data b) None = Some x.

(** Where the RR words of a heart-rate packet start: after the flags, the
    8- or 16-bit heart rate and the optional energy field. *)
Definition rr_offset (flags : Z) : Z :=
  (1 + (if (Z.land flags 1 =? 1) then 2 else 1)
     + (if (Z.land flags 8 =? 8) then 2 else 0))%Z.

(** What [parseHrMeasurement] returns on a packet: one of its two errors, or
    a measurement read within the packet. *)
Definition parse_outcome (value : DataView)
    (outcome : result ParsedHeartRateMeasurement) : Prop :=
  let flags := byte_at value 0 in
  match outcome with
  | Throw message =>
      ((byteLength value < 2)%Z
       /\ message = "heart rate packet is too short"%string)
      \/ (byteLength value = 2%Z /\ Z.land flags 1 = 1%Z
          /\ message
             = "invalid heart rate packet: missing uint16 HR value"%string)
  | Ok parsed =>
      (2 <= byteLength value)%Z
      /\ (Z.land flags 1 = 1%Z ->
          (3 <= byteLength value)%Z
          /\ parsed_hr parsed
             = (byte_at value 1 + 256 * byte_at value 2)%Z)
      /\ (Z.land flags 1 <> 1%Z -> parsed_hr parsed = byte_at value 1)
      /\ (0 <= parsed_hr parsed < 65536)%Z
      /\ Forall (fun rr => 0 <= rr < 64) (parsed_rr_s parsed)
      /\ (Z.land flags 16 <> 16%Z -> parsed_rr_s parsed = [])
      /\ (Z.land flags 16 = 16%Z ->
          Z.of_nat (length (parsed_rr_s parsed))
          = Z.max 0 ((byteLength value - rr_offset flags) / 2))
  end.

(** Flags 0x10, heart rate 60, two RR words 0x0400 and 0x0200, and a stray
    last byte. *)
Definition sample_packet : DataView :=
  [Byte.x10; Byte.x3c; Byte.x00; Byte.x04; Byte.x00; Byte.x02; Byte.xff].

(** * Proofs *)

(** ** Boolean comparisons *)

Lemma ltb_true_iff (x y : Q) : Num.ltb x y = true <-> x < y.
Proof.
  unfold Num.ltb. rewrite Qlt_alt.
  destruct (x ?= y); split; congruence.
Qed.

Lemma ltb_false_iff (x y : Q) : Num.ltb x y = false <-> y <= x.
Proof.
  unfold Num.ltb. rewrite Qle_alt, <- (Qcompare_antisym x y).
  destruct (x ?= y); simpl; split; congruence.
Qed.

Lemma leb_true_iff (x y : Q) : Num.leb x y = true <-> x <= y.
Proof. apply Qle_bool_iff. Qed.

Lemma leb_false_iff (x y : Q) : Num.leb x y = false <-> y < x.
Proof.
  unfold Num.leb. split; intro H.
  - apply Qnot_le_lt. intro Hle. apply Qle_bool_iff in Hle. congruence.
  - destruct (Qle_bool x y) eqn:E; [|reflexivity].
    apply Qle_bool_iff in E. lra.
Qed.

(** Case analysis on every boolean comparison in the goal, each branch
    recording the order fact it stands for. *)
Ltac qcompare :=
  repeat match goal with
  | |- context [Num.ltb ?x ?y] =>
      let E := fresh "E" in
      destruct (Num.ltb x y) eqn:E;
      [apply ltb_true_iff in E | apply ltb_false_iff in E]
  | |- context [Num.leb ?x ?y] =>
      let E := fresh "E" in
      destruct (Num.leb x y) eqn:E;
      [apply leb_true_iff in E | apply leb_false_iff in E]
  end.

(** ** integrateBand *)

Section BandIntegral.

Variable psd : PsdData.

Lemma integrateBand_step_term lowHz highHz area i :
  integrateBand_step psd lowHz highHz area i
  == area + band_term psd lowHz highHz i.
Proof.
  unfold band_term, integrateBand_step. cbv zeta.
  qcompare; simpl; lra.
Qed.

Lemma integrateBand_fold lowHz highHz l : forall area,
  fold_left (integrateBand_step psd lowHz highHz) l area
  == area + band_sum psd lowHz highHz l.
Proof.
  induction l as [|i l IH]; intro area; simpl.
  - lra.
  - rewrite IH, integrateBand_step_term. lra.
Qed.

Lemma integrateBand_sum lowHz highHz :
  integrateBand psd lowHz highHz
  == band_sum psd lowHz highHz (band_indices psd).
Proof.
  unfold integrateBand, band_indices.
  destruct (_ || _); simpl; [reflexivity|].
  rewrite integrateBand_fold. lra.
Qed.

Lemma band_term_split a b c i :
  a <= b -> b <= c ->
  band_term psd a b i + band_term psd b c i
  == band_term psd a c i + band_term psd b b i.
Proof.
  intros Hab Hbc. unfold band_term, integrateBand_step. cbv zeta.
  qcompare; simpl; lra.
Qed.

Lemma band_sum_split a b c l :
  a <= b -> b <= c ->
  band_sum psd a b l + band_sum psd b c l
  == band_sum psd a c l + band_sum psd b b l.
Proof.
  intros Hab Hbc. induction l as [|i l IH]; simpl.
  - lra.
  - pose proof (band_term_split a b c i Hab Hbc). lra.
Qed.

Hypothesis powers_nonneg : Forall (fun x => 0 <= x) (psd_p psd).

Lemma power_nth_nonneg i : 0 <= nth i (psd_p psd) 0.
Proof.
  destruct (Nat.lt_ge_cases i (length (psd_p psd))) as [Hi|Hi].
  - rewrite Forall_forall in powers_nonneg.
    apply powers_nonneg, nth_In, Hi.
  - rewrite nth_overflow by exact Hi. lra.
Qed.

Lemma band_term_nonneg lowHz highHz i : 0 <= band_term psd lowHz highHz i.
Proof.
  unfold band_term, integrateBand_step. cbv zeta.
  pose proof (power_nth_nonneg (i - 1)) as H0.
  pose proof (power_nth_nonneg i) as H1.
  qcompare; simpl; try lra.
  rewrite Qplus_0_l. apply Qmult_le_0_compat; [|lra].
  apply Qle_shift_div_l; lra.
Qed.

Lemma band_sum_nonneg lowHz highHz l : 0 <= band_sum psd lowHz highHz l.
Proof.
  induction l as [|i l IH]; simpl; [lra|].
  pose proof (band_term_nonneg lowHz highHz i). lra.
Qed.

(** A narrower band collects no more than a wider one. *)
Lemma band_term_mono lo hi lo' hi' i :
  lo' <= lo -> hi <= hi' ->
  band_term psd lo hi i <= band_term psd lo' hi' i.
Proof.
  intros Hlo Hhi.
  pose proof (band_term_nonneg lo' hi' i) as Hn. revert Hn.
  unfold band_term, integrateBand_step. cbv zeta.
  qcompare; simpl; intros; lra.
Qed.

Lemma band_sum_mono lo hi lo' hi' l :
  lo' <= lo -> hi <= hi' ->
  band_sum psd lo hi l <= band_sum psd lo' hi' l.
Proof.
  intros Hlo Hhi. induction l as [|i l IH]; simpl; [lra|].
  pose proof (band_term_mono lo hi lo' hi' i Hlo Hhi). lra.
Qed.

Lemma integrateBand_nonneg lowHz highHz : 0 <= integrateBand psd lowHz highHz.
Proof. rewrite integrateBand_sum. apply band_sum_nonneg. Qed.

Lemma integrateBand_mono lo hi lo' hi' :
  lo' <= lo -> hi <= hi' ->
  integrateBand psd lo hi <= integrateBand psd lo' hi'.
Proof.
  intros. rewrite !integrateBand_sum. now apply band_sum_mono.
Qed.

End BandIntegral.

(** C1, as amended.  For every PSD with non-negative powers and every
    [a <= b <= c], the two half-band integrals add up to the whole-band
    integral plus [integrateBand psd b b], the area of the adjacent pairs
    whose interval contains [b]: those pairs overlap both halves and are
    counted in each, so the whole-band integral is at most the sum of the
    halves. *)
Theorem integrateBand_split (psd : PsdData) (a b c : Q) :
  Forall (fun x => 0 <= x) (psd_p psd) ->
  a <= b -> b <= c ->
  integrateBand psd a b + integrateBand psd b c
    == integrateBand psd a c + integrateBand psd b b
  /\ integrateBand psd a c
       <= integrateBand psd a b + integrateBand psd b c.
Proof.
  intros Hp Hab Hbc.
  assert (Hsplit : integrateBand psd a b + integrateBand psd b c
                   == integrateBand psd a c + integrateBand psd b b).
  { rewrite !integrateBand_sum. now apply band_sum_split. }
  split; [exact Hsplit|].
  pose proof (integrateBand_nonneg psd Hp b b). lra.
Qed.

(** C2.  With non-negative powers, [coherenceScore] lies in [0, 1] when the
    total power over 0.04-0.4 Hz is positive, and is exactly 0 when that
    total power is 0. *)
Theorem computeCoherence_score_range (psd : PsdData) (targetHz : Q) :
  Forall (fun x => 0 <= x) (psd_p psd) ->
  let totalPower := integrateBand psd LF_LOW_HZ HF_HIGH_HZ in
  (0 < totalPower ->
     0 <= coherenceScore (computeCoherence psd targetHz) <= 1)
  /\ (totalPower == 0 -> coherenceScore (computeCoherence psd targetHz) = 0).
Proof.
  intros Hp totalPower. unfold computeCoherence. cbv zeta. simpl.
  fold totalPower.
  set (targetLow := Qmax LF_LOW_HZ (targetHz - TARGET_HALF_BAND_HZ)).
  set (targetHigh := Qmin HF_HIGH_HZ (targetHz + TARGET_HALF_BAND_HZ)).
  assert (Hlow : LF_LOW_HZ <= targetLow) by apply Q.le_max_l.
  assert (Hhigh : targetHigh <= HF_HIGH_HZ) by apply Q.le_min_l.
  pose proof (integrateBand_nonneg psd Hp targetLow targetHigh) as H0.
  pose proof (integrateBand_mono psd Hp targetLow targetHigh
                LF_LOW_HZ HF_HIGH_HZ Hlow Hhigh) as H1.
  fold totalPower in H1.
  split.
  - intro Hpos.
    destruct (Num.ltb 0 totalPower) eqn:E;
      [|apply ltb_false_iff in E; lra].
    split.
    + apply Qle_shift_div_l; [exact Hpos|lra].
    + apply Qle_shift_div_r; [exact Hpos|lra].
  - intro Hzero.
    destruct (Num.ltb 0 totalPower) eqn:E; [|reflexivity].
    apply ltb_true_iff in E. lra.
Qed.

Ltac forall_nonneg :=
  repeat first [apply Forall_nil | apply Forall_cons; [lra|]].

(** The split at 1 Hz of the band 0-2 Hz of [flat_psd]: each half already
    collects both pairs. *)
Lemma integrateBand_split_witness :
  integrateBand flat_psd 0 1 + integrateBand flat_psd 1 2
    == integrateBand flat_psd 0 2 + integrateBand flat_psd 1 1
  /\ integrateBand flat_psd 0 2
       <= integrateBand flat_psd 0 1 + integrateBand flat_psd 1 2.
Proof.
  apply (integrateBand_split flat_psd 0 1 2).
  - unfold flat_psd; simpl. forall_nonneg.
  - lra.
  - lra.
Defined.

(** C1 fails as stated: on [flat_psd], with [0 <= 1 <= 2] inside the
    frequency range, the whole band integrates to 2 and each half to 2 as
    well. *)
Lemma integrateBand_not_additive :
  strictly_increasing (psd_f flat_psd) = true
  /\ Forall (fun x => 0 <= x) (psd_p flat_psd)
  /\ 0 <= 1 /\ 1 <= 2
  /\ in_frequency_range flat_psd 0 = true
  /\ in_frequency_range flat_psd 1 = true
  /\ in_frequency_range flat_psd 2 = true
  /\ integrateBand flat_psd 0 2 == 2
  /\ integrateBand flat_psd 0 1 == 2
  /\ integrateBand flat_psd 1 2 == 2
  /\ ~ integrateBand flat_psd 0 2
       == integrateBand flat_psd 0 1 + integrateBand flat_psd 1 2.
Proof.
  repeat split; try reflexivity; try lra.
  - unfold flat_psd; simpl. forall_nonneg.
  - vm_compute. discriminate.
Qed.

Lemma computeCoherence_score_range_witness :
  0 <= coherenceScore (computeCoherence peaked_psd (1 # 10)) <= 1.
Proof.
  apply (computeCoherence_score_range peaked_psd (1 # 10)).
  - unfold peaked_psd; simpl. forall_nonneg.
  - vm_compute. reflexivity.
Defined.

(** ** Lists, indices and subsequences *)

Lemma map_nth_seq_combine {A B : Type} (dA : A) (dB : B) (l1 : list A) :
  forall (l2 : list B),
  length l1 = length l2 ->
  map (fun i => (nth i l1 dA, nth i l2 dB)) (seq 0 (length l2)) = combine l1 l2.
Proof.
  induction l1 as [|a l1 IH]; intros [|b l2] Hlen; simpl in *;
    try discriminate; [reflexivity|].
  f_equal. rewrite <- seq_shift, map_map. apply IH. lia.
Qed.

Lemma combine_fst_snd {A B : Type} (l : list (A * B)) :
  combine (map fst l) (map snd l) = l.
Proof.
  induction l as [|[a b] l IH]; simpl; [reflexivity|]. now rewrite IH.
Qed.

Lemma Subseq_refl {A : Type} (l : list A) : Subseq l l.
Proof. induction l; constructor; assumption. Qed.

Lemma Subseq_filter {A : Type} (keep : A -> bool) (l : list A) :
  Subseq (filter keep l) l.
Proof.
  induction l as [|x l IH]; simpl; [constructor|].
  destruct (keep x); constructor; assumption.
Qed.

Lemma Subseq_map {A B : Type} (g : A -> B) (l1 l2 : list A) :
  Subseq l1 l2 -> Subseq (map g l1) (map g l2).
Proof. induction 1; simpl; constructor; assumption. Qed.

Lemma Subseq_Forall {A : Type} (P : A -> Prop) (l1 l2 : list A) :
  Subseq l1 l2 -> Forall P l2 -> Forall P l1.
Proof.
  induction 1; intro HF; [constructor| |]; inversion HF; subst; auto.
Qed.

Lemma Subseq_length {A : Type} (l1 l2 : list A) :
  Subseq l1 l2 -> (length l1 <= length l2)%nat.
Proof. induction 1; simpl; lia. Qed.

(** ** cleanRrSeries *)

Section ArtifactFilter.

Variable config : ArtifactConfig.

Lemma range_step_pick rrTimes_s rr_s st i :
  range_step config rrTimes_s rr_s st i
  = (fst st ++ map fst (range_pick config
                          (nth i rrTimes_s Num.NaN, nth i rr_s Num.NaN)),
     snd st ++ map snd (range_pick config
                          (nth i rrTimes_s Num.NaN, nth i rr_s Num.NaN))).
Proof.
  unfold range_step, range_pick. simpl. destruct st as [ts vs]. simpl.
  destruct (nth i rr_s Num.NaN), (nth i rrTimes_s Num.NaN);
    simpl; rewrite ?app_nil_r; try reflexivity.
  destruct (_ || _); simpl; rewrite ?app_nil_r; reflexivity.
Qed.

Lemma range_fold rrTimes_s rr_s l : forall st,
  fold_left (range_step config rrTimes_s rr_s) l st
  = (fst st ++ map fst
       (flat_map (range_pick config)
          (map (fun i => (nth i rrTimes_s Num.NaN, nth i rr_s Num.NaN)) l)),
     snd st ++ map snd
       (flat_map (range_pick config)
          (map (fun i => (nth i rrTimes_s Num.NaN, nth i rr_s Num.NaN)) l))).
Proof.
  induction l as [|i l IH]; intros [ts vs]; simpl.
  - now rewrite !app_nil_r.
  - rewrite IH, range_step_pick. simpl.
    now rewrite !map_app, !app_assoc.
Qed.

(** The first loop returns the samples that pass, as two parallel lists. *)
Lemma range_filter_picks rrTimes_s rr_s :
  length rrTimes_s = length rr_s ->
  range_filter config rrTimes_s rr_s
  = (map fst (flat_map (range_pick config) (combine rrTimes_s rr_s)),
     map snd (flat_map (range_pick config) (combine rrTimes_s rr_s))).
Proof.
  intro Hlen. unfold range_filter.
  rewrite range_fold. simpl.
  now rewrite (map_nth_seq_combine Num.NaN Num.NaN rrTimes_s rr_s Hlen).
Qed.

Lemma range_pick_passes (samples : list (Num.number * Num.number)) :
  map raw_sample (flat_map (range_pick config) samples)
  = filter (passes_range (minRrSec config) (maxRrSec config)) samples.
Proof.
  induction samples as [|[t v] samples IH]; simpl; [reflexivity|].
  rewrite map_app, IH. unfold range_pick. simpl.
  destruct v as [value| | |], t as [time| | |]; simpl; try reflexivity.
  qcompare; simpl; try reflexivity; lra.
Qed.

Lemma range_pick_in_range (samples : list (Num.number * Num.number)) :
  Forall (fun v => minRrSec config <= v <= maxRrSec config)
    (map snd (flat_map (range_pick config) samples)).
Proof.
  induction samples as [|[t v] samples IH]; simpl; [constructor|].
  rewrite map_app. apply Forall_app. split; [|exact IH].
  unfold range_pick. simpl.
  destruct v as [value| | |], t as [time| | |]; simpl; try constructor.
  qcompare; simpl; constructor; try constructor; lra.
Qed.

Lemma hampel_fold rangeTimes rangeValues l : forall st,
  fold_left (hampel_step config rangeTimes rangeValues) l st
  = (fst st ++ map (fun i => nth i rangeTimes 0)
                 (filter (hampel_keep config rangeValues) l),
     snd st ++ map (fun i => nth i rangeValues 0)
                 (filter (hampel_keep config rangeValues) l)).
Proof.
  induction l as [|i l IH]; intros [ts vs]; simpl.
  - now rewrite !app_nil_r.
  - rewrite IH. unfold hampel_step.
    destruct (hampel_keep config rangeValues i); simpl;
      [now rewrite <- !app_assoc | reflexivity].
Qed.

(** The second loop keeps the samples at the indices that pass the test. *)
Lemma hampel_samples rangeTimes rangeValues :
  length rangeTimes = length rangeValues ->
  let out := fold_left (hampel_step config rangeTimes rangeValues)
               (seq 0 (length rangeValues)) ([], []) in
  length (fst out) = length (snd out)
  /\ Subseq (combine (fst out) (snd out)) (combine rangeTimes rangeValues).
Proof.
  intros Hlen out. subst out. rewrite hampel_fold. simpl.
  split; [now rewrite !length_map|].
  rewrite <- (map_nth_seq_combine 0 0 rangeTimes rangeValues Hlen).
  set (kept := filter _ _).
  replace (combine _ _)
    with (map (fun i => (nth i rangeTimes 0, nth i rangeValues 0)) kept).
  - apply Subseq_map, Subseq_filter.
  - clear. induction kept as [|i kept IH]; simpl; [reflexivity|].
    now rewrite IH.
Qed.

End ArtifactFilter.

(** C3.  On equal-length inputs [cleanRrSeries] returns a cleaned series
    whose samples are an order-preserving subsequence of the raw samples that
    pass the range filter (finite timestamp and value, value in [0.3, 2.0]),
    and every retained interval lies in [0.3, 2.0]. *)
Theorem cleanRrSeries_subsequence (rrTimes_s rr_s : list Num.number) :
  length rrTimes_s = length rr_s ->
  exists out : CleanedRrData,
    cleanRrSeries rrTimes_s rr_s no_options = Ok out
    /\ length (cleaned_rrTimes_s out) = length (cleaned_rr_s out)
    /\ Subseq (map raw_sample
                 (combine (cleaned_rrTimes_s out) (cleaned_rr_s out)))
              (filter (passes_range (3 # 10) 2) (combine rrTimes_s rr_s))
    /\ Forall (fun v => 3 # 10 <= v <= 2) (cleaned_rr_s out).
Proof.
  intro Hlen. unfold cleanRrSeries.
  change (merge_options no_options) with DEFAULT_OPTIONS.
  rewrite Hlen, Nat.eqb_refl. simpl negb. cbv iota.
  rewrite (range_filter_picks DEFAULT_OPTIONS rrTimes_s rr_s Hlen).
  set (picked := flat_map (range_pick DEFAULT_OPTIONS) (combine rrTimes_s rr_s)).
  pose proof (range_pick_passes DEFAULT_OPTIONS (combine rrTimes_s rr_s))
    as Hpass.
  pose proof (range_pick_in_range DEFAULT_OPTIONS (combine rrTimes_s rr_s))
    as Hrange.
  fold picked in Hpass, Hrange. simpl in Hpass, Hrange.
  destruct (length (map snd picked) <? 3)%nat.
  - eexists. split; [reflexivity|]. simpl.
    rewrite combine_fst_snd, Hpass, !length_map.
    repeat split; [apply Subseq_refl | exact Hrange].
  - destruct (hampel_samples DEFAULT_OPTIONS (map fst picked) (map snd picked))
      as [Hl Hsub]; [now rewrite !length_map|].
    destruct (fold_left _ _ _) as [filteredTimes filteredValues].
    simpl in Hl, Hsub.
    eexists. split; [reflexivity|]. simpl.
    rewrite combine_fst_snd in Hsub.
    repeat split.
    + exact Hl.
    + rewrite <- Hpass. now apply Subseq_map.
    + apply (Subseq_map snd) in Hsub.
      replace (map snd (combine filteredTimes filteredValues))
        with filteredValues in Hsub.
      * exact (Subseq_Forall _ _ _ Hsub Hrange).
      * clear - Hl. revert filteredValues Hl.
        induction filteredTimes as [|t ts IH]; intros [|v vs] Hl;
          simpl in *; try discriminate; [reflexivity|].
        f_equal. apply IH. lia.
Qed.

(** ** The calibration summary *)

Lemma best_fold (l : list CalibrationPoint) :
  forall (c : CalibrationPoint) (before after : list CalibrationPoint),
  Forall (fun point => score point < score c) before ->
  Forall (fun point => score point <= score c) after ->
  exists b, fold_left best_step l (Some c) = Some b
    /\ exists before' after',
         before ++ c :: after ++ l = before' ++ b :: after'
         /\ Forall (fun point => score point < score b) before'
         /\ Forall (fun point => score point <= score b) after'.
Proof.
  induction l as [|x l IH]; intros c before after Hb Ha; simpl.
  - exists c. split; [reflexivity|].
    exists before, after. now rewrite app_nil_r.
  - destruct (Num.ltb (score c) (score x)) eqn:E.
    + apply ltb_true_iff in E.
      destruct (IH x (before ++ c :: after) []) as (b & Hfold & Hrest).
      * apply Forall_app. split; [|constructor; [exact E|]].
        -- eapply Forall_impl; [|exact Hb]. simpl. intros; lra.
        -- eapply Forall_impl; [|exact Ha]. simpl. intros; lra.
      * constructor.
      * exists b. split; [exact Hfold|].
        destruct Hrest as (before' & after' & Heq & H1 & H2).
        exists before', after'. repeat split; try assumption.
        rewrite <- Heq. simpl. now rewrite <- !app_assoc.
    + apply ltb_false_iff in E.
      destruct (IH c before (after ++ [x])) as (b & Hfold & Hrest).
      * exact Hb.
      * apply Forall_app. split; [exact Ha|]. constructor; [exact E|constructor].
      * exists b. split; [exact Hfold|].
        destruct Hrest as (before' & after' & Heq & H1 & H2).
        exists before', after'. repeat split; try assumption.
        rewrite <- Heq. now rewrite <- !app_assoc.
Qed.

(** C4.  For every list of scanned points, [best] of the summary is the
    first point that attains the greatest score (ties keep the earlier
    point), and it is absent if and only if the list is empty. *)
Theorem summarize_best_first_maximum (points : list CalibrationPoint) :
  scanned (summarize points) = points
  /\ first_maximum points (best (summarize points))
  /\ (best (summarize points) = None <-> points = []).
Proof.
  split; [reflexivity|]. unfold summarize. simpl.
  destruct points as [|c l]; simpl.
  - repeat split; reflexivity.
  - destruct (best_fold l c [] []) as (b & Hfold & Hrest);
      [constructor | constructor |].
    rewrite Hfold. simpl. split; [exact Hrest|].
    split; discriminate.
Qed.

(** ** The worker and the calibration scan *)

Lemma cleanRrSeries_ok rrTimes_s rr_s options :
  length rrTimes_s = length rr_s ->
  exists out, cleanRrSeries rrTimes_s rr_s options = Ok out.
Proof.
  intro Hlen. unfold cleanRrSeries.
  rewrite Hlen, Nat.eqb_refl. simpl negb. cbv iota.
  destruct (range_filter _ _ _) as [rangeTimes rangeValues].
  destruct (length rangeValues <? 3)%nat; [eexists; reflexivity|].
  destruct (fold_left _ _ _). eexists; reflexivity.
Qed.

Lemma cleanRrSeries_throw rrTimes_s rr_s options :
  length rrTimes_s <> length rr_s ->
  cleanRrSeries rrTimes_s rr_s options
  = Throw "rrTimes_s and rr_s lengths do not match".
Proof.
  intro Hlen. unfold cleanRrSeries.
  apply Nat.eqb_neq in Hlen. now rewrite Hlen.
Qed.

Lemma segment_fold_lengths rrTimes_s rr_s start stop l : forall st,
  length (fst st) = length (snd st) ->
  let out := fold_left (segment_step rrTimes_s rr_s start stop) l st in
  length (fst out) = length (snd out).
Proof.
  induction l as [|i l IH]; intros st Hst; simpl; [exact Hst|].
  apply IH. unfold segment_step.
  destruct (_ && _); simpl; [|exact Hst].
  rewrite !length_app, Hst. reflexivity.
Qed.

Lemma calibration_segment_lengths rrTimes_s rr_s stepSec frequencyHz index :
  let segment :=
    calibration_segment rrTimes_s rr_s stepSec frequencyHz index in
  length (segment_rrTimes_s segment) = length (segment_rr_s segment).
Proof.
  unfold calibration_segment.
  pose proof (segment_fold_lengths rrTimes_s rr_s
                (Num.of_nat index * stepSec)
                (Num.of_nat (index + 1) * stepSec)
                (seq 0 (length rr_s)) ([], []) eq_refl) as H.
  cbv zeta in H. destruct (fold_left _ _ _). exact H.
Qed.

Lemma calculateCalibrationSegments_lengths rrTimes_s rr_s frequenciesHz stepSec :
  Forall (fun segment =>
            length (segment_rrTimes_s segment) = length (segment_rr_s segment))
    (calculateCalibrationSegments rrTimes_s rr_s frequenciesHz stepSec).
Proof.
  unfold calculateCalibrationSegments. apply Forall_map, Forall_forall.
  intros [index frequencyHz] _. apply calibration_segment_lengths.
Qed.

Section Pipeline.

Context {M : MathLib}.

Lemma analyze_ok rrTimes_s rr_s targetHz :
  length rrTimes_s = length rr_s ->
  exists result, analyze rrTimes_s rr_s targetHz = Ok result.
Proof.
  intro Hlen. unfold analyze.
  destruct (cleanRrSeries_ok rrTimes_s rr_s no_options Hlen) as [out ->].
  eexists; reflexivity.
Qed.

Lemma analyzeInWorker_ready payload :
  length (payload_rrTimes_s payload) = length (payload_rr_s payload) ->
  exists result,
    analyzeInWorker (Some onmessage) payload = Fulfilled result.
Proof.
  intro Hlen. unfold analyzeInWorker, onmessage. simpl.
  destruct (analyze_ok _ _ (payload_targetHz payload) Hlen) as [result ->].
  eexists; reflexivity.
Qed.

(** The payloads posted are those of segments with at least 16 samples. *)
Lemma scan_segments_posted worker segments : forall posted pts,
  Forall (fun payload => (16 <= length (payload_rr_s payload))%nat) posted ->
  Forall (fun payload => (16 <= length (payload_rr_s payload))%nat)
    (fst (scan_segments worker segments posted pts)).
Proof.
  induction segments as [|segment rest IH]; intros posted pts Hposted;
    simpl; [exact Hposted|].
  destruct (length (segment_rr_s segment) <? 16)%nat eqn:E;
    [now apply IH|].
  apply Nat.ltb_ge in E.
  assert (Hposted' :
    Forall (fun payload => (16 <= length (payload_rr_s payload))%nat)
      match worker with
      | Some _ => posted ++ [segment_payload segment]
      | None => posted
      end).
  { destruct worker; [|exact Hposted].
    apply Forall_app. split; [exact Hposted|].
    constructor; [exact E|constructor]. }
  destruct (analyzeInWorker worker (segment_payload segment));
    simpl; [now apply IH | exact Hposted' | exact Hposted'].
Qed.

(** A scan that completes has made one point per segment and posted the
    payload of every segment that is not short. *)
Lemma scan_segments_fulfilled worker segments : forall posted pts posted' pts',
  scan_segments worker segments posted pts = (posted', Fulfilled pts') ->
  exists new,
    pts' = pts ++ new
    /\ Forall2 point_of_segment segments new
    /\ posted' = posted ++ map segment_payload
                   (filter (fun s => negb (short_segment s)) segments).
Proof.
  induction segments as [|segment rest IH]; intros posted pts posted' pts' H;
    simpl in H.
  - inversion H; subst. exists []. simpl.
    rewrite !app_nil_r. repeat split. constructor.
  - simpl. unfold short_segment at 1.
    destruct (length (segment_rr_s segment) <? 16)%nat eqn:E.
    + destruct (IH _ _ _ _ H) as (new & -> & HF & ->).
      exists (zero_point segment :: new).
      split; [now rewrite <- app_assoc|]. split; [|reflexivity].
      constructor; [|exact HF]. repeat split; reflexivity.
    + destruct worker as [w|]; [|discriminate H].
      destruct (analyzeInWorker (Some w) (segment_payload segment))
        as [result| |]; try discriminate H.
      destruct (IH _ _ _ _ H) as (new & -> & HF & ->).
      exists (scored_point segment result :: new).
      split; [now rewrite <- app_assoc|].
      split; [|now rewrite <- app_assoc].
      constructor; [|exact HF].
      split; [reflexivity|]. split; [reflexivity|].
      unfold short_segment. rewrite E. discriminate.
Qed.

(** With the worker ready, every request comes back with a result. *)
Lemma scan_segments_ready segments : forall posted pts,
  Forall (fun segment =>
            length (segment_rrTimes_s segment)
            = length (segment_rr_s segment)) segments ->
  exists pts',
    snd (scan_segments (Some onmessage) segments posted pts) = Fulfilled pts'.
Proof.
  induction segments as [|segment rest IH]; intros posted pts Hlen;
    cbn [scan_segments].
  - eexists; reflexivity.
  - inversion Hlen as [|? ? Hseg Hrest]; subst.
    destruct (length (segment_rr_s segment) <? 16)%nat; [now apply IH|].
    destruct (analyzeInWorker_ready (segment_payload segment) Hseg)
      as [result ->].
    now apply IH.
Qed.

(** No request at all when every segment is short. *)
Lemma scan_segments_short worker segments : forall posted pts,
  Forall (fun segment => short_segment segment = true) segments ->
  exists pts',
    scan_segments worker segments posted pts = (posted, Fulfilled pts').
Proof.
  induction segments as [|segment rest IH]; intros posted pts Hshort; simpl.
  - eexists; reflexivity.
  - inversion Hshort as [|? ? Hseg Hrest]; subst.
    unfold short_segment in Hseg. rewrite Hseg. now apply IH.
Qed.

(** Without a worker the first segment that is not short ends the scan:
    nothing is posted and the promise is rejected. *)
Lemma scan_segments_no_worker segments : forall posted pts,
  Exists (fun segment => short_segment segment = false) segments ->
  scan_segments None segments posted pts
  = (posted, Rejected "analysis worker is not ready").
Proof.
  induction segments as [|segment rest IH]; intros posted pts Hlong;
    [inversion Hlong|].
  cbn [scan_segments].
  destruct (length (segment_rr_s segment) <? 16)%nat eqn:E.
  - apply IH. inversion Hlong as [? ? Hseg|? ? Hrest]; subst;
      [|exact Hrest].
    unfold short_segment in Hseg. congruence.
  - reflexivity.
Qed.

End Pipeline.

(** C5, as amended.  A calibration segment with fewer than 16 raw samples
    yields a zero-valued point and is never posted to the analysis worker:
    the payloads posted all hold at least 16 samples, and a scan that
    completes has made one point per segment, zero-valued for the short ones,
    having posted exactly the other segments.  The scan returns a summary
    whenever the worker is ready, and without any request when every segment
    is short; when the worker is not ready and some segment holds at least
    16 samples, the scan posts nothing and is rejected with the error
    "analysis worker is not ready". *)
Theorem performCalibrationSummary_scan `{MathLib} (worker : option Worker)
    (rrTimes_s rr_s : list Num.number) :
  let segments :=
    calculateCalibrationSegments rrTimes_s rr_s
      CALIBRATION_FREQUENCIES_HZ CALIBRATION_STEP_SEC in
  let run := performCalibrationSummary worker rrTimes_s rr_s in
  Forall (fun payload => (16 <= length (payload_rr_s payload))%nat) (fst run)
  /\ (forall summary, snd run = Fulfilled summary ->
        Forall2 point_of_segment segments (scanned summary)
        /\ fst run = map segment_payload
                       (filter (fun s => negb (short_segment s)) segments))
  /\ (worker = Some onmessage -> exists summary, snd run = Fulfilled summary)
  /\ (Forall (fun s => short_segment s = true) segments ->
        fst run = [] /\ exists summary, snd run = Fulfilled summary)
  /\ (worker = None ->
      Exists (fun s => short_segment s = false) segments ->
      run = ([], Rejected "analysis worker is not ready")).
Proof.
  intros segments run. subst run. unfold performCalibrationSummary.
  fold segments.
  pose proof (scan_segments_posted worker segments [] [] (Forall_nil _))
    as Hposted.
  pose proof (scan_segments_fulfilled worker segments [] []) as Hdone.
  split; [|split; [|split; [|split]]].
  - destruct (scan_segments worker segments [] []) as [posted [pts| |]];
      exact Hposted.
  - intros summary Hsum.
    destruct (scan_segments worker segments [] []) as [posted [pts| |]];
      simpl in Hsum; try discriminate Hsum.
    destruct (Hdone posted pts eq_refl) as (new & -> & HF & ->).
    inversion Hsum; subst. simpl. split; [exact HF|reflexivity].
  - intros ->.
    destruct (scan_segments_ready segments [] []) as [pts Hpts].
    { apply calculateCalibrationSegments_lengths. }
    destruct (scan_segments (Some onmessage) segments [] [])
      as [posted outcome]. simpl in Hpts. subst outcome.
    eexists; reflexivity.
  - intro Hshort.
    destruct (scan_segments_short worker segments [] [] Hshort) as [pts ->].
    simpl. split; [reflexivity|]. eexists; reflexivity.
  - intros -> Hlong.
    now rewrite (scan_segments_no_worker segments [] [] Hlong).
Qed.

(** C5 fails as stated: with sixteen beats in the first 20 s and no worker
    ready, the scan ends in an error and returns no summary. *)
Lemma performCalibrationSummary_can_fail :
  performCalibrationSummary None (steady_times 0 16) (steady_values 16)
  = ([], Rejected "analysis worker is not ready").
Proof. vm_compute. reflexivity. Qed.

(** C7.  On input sequences of unequal length the pipeline reports the
    length-mismatch error and nothing else: [cleanRrSeries], its first step,
    throws, [analyze] returns no result, the worker posts an error message
    and the caller's promise is rejected with that message. *)
Theorem analyze_length_mismatch `{MathLib}
    (rrTimes_s rr_s : list Num.number) (targetHz : Q) :
  length rrTimes_s <> length rr_s ->
  let payload :=
    {| payload_rrTimes_s := rrTimes_s; payload_rr_s := rr_s;
       payload_targetHz := targetHz |} in
  cleanRrSeries rrTimes_s rr_s no_options
    = Throw "rrTimes_s and rr_s lengths do not match"
  /\ analyze rrTimes_s rr_s targetHz
     = Throw "rrTimes_s and rr_s lengths do not match"
  /\ onmessage {| request_type := "analyze"; request_payload := payload |}
     = Some (WorkerErrorMessage "rrTimes_s and rr_s lengths do not match")
  /\ analyzeInWorker (Some onmessage) payload
     = Rejected "rrTimes_s and rr_s lengths do not match".
Proof.
  intros Hlen payload.
  pose proof (cleanRrSeries_throw rrTimes_s rr_s no_options Hlen) as Hthrow.
  assert (Han : analyze rrTimes_s rr_s targetHz
                = Throw "rrTimes_s and rr_s lengths do not match").
  { unfold analyze. now rewrite Hthrow. }
  assert (Hmsg : onmessage {| request_type := "analyze";
                              request_payload := payload |}
                 = Some (WorkerErrorMessage
                           "rrTimes_s and rr_s lengths do not match")).
  { unfold onmessage. simpl. now rewrite Han. }
  repeat split; try assumption.
  unfold analyzeInWorker. now rewrite Hmsg.
Qed.

Lemma analyze_length_mismatch_witness :
  @analyze approxMath (steady_times 0 3) (steady_values 2) (1 # 10)
  = Throw "rrTimes_s and rr_s lengths do not match".
Proof.
  apply (@analyze_length_mismatch approxMath
           (steady_times 0 3) (steady_values 2) (1 # 10)).
  simpl. discriminate.
Defined.

(** C10.  On arrays of unequal length [resampleRrToUniform] returns the empty
    signal at the given [fs], whatever the number of iterations allowed: no
    error, no sample. *)
Theorem resampleRrToUniform_length_mismatch
    (fuel : nat) (rrTimes_s rr_s : list Q) (fs : Q) :
  length rrTimes_s <> length rr_s ->
  resampleRrToUniform fuel rrTimes_s rr_s fs
    = Some {| signal_fs := fs; signal_t := []; signal_y := [] |}
  /\ resampleRrToUniform_run rrTimes_s rr_s fs
     = {| signal_fs := fs; signal_t := []; signal_y := [] |}.
Proof.
  intro Hlen. apply Nat.eqb_neq in Hlen.
  unfold resampleRrToUniform_run, resampleRrToUniform.
  rewrite Hlen. simpl. split; reflexivity.
Qed.

Lemma resampleRrToUniform_length_mismatch_witness :
  resampleRrToUniform 0 [1; 2; 3] [1; 1] 4
    = Some {| signal_fs := 4; signal_t := []; signal_y := [] |}
  /\ resampleRrToUniform_run [1; 2; 3] [1; 1] 4
     = {| signal_fs := 4; signal_t := []; signal_y := [] |}.
Proof.
  apply (resampleRrToUniform_length_mismatch 0 [1; 2; 3] [1; 1] 4).
  simpl. discriminate.
Defined.

(** ** resampleRrToUniform runs to completion *)

Lemma of_nat_succ (n : nat) : Num.of_nat (S n) == Num.of_nat n + 1.
Proof.
  unfold Num.of_nat. rewrite Nat2Z.inj_succ, <- Z.add_1_r, inject_Z_plus.
  reflexivity.
Qed.

Lemma of_nat_nonneg (n : nat) : 0 <= Num.of_nat n.
Proof.
  unfold Num.of_nat. change 0 with (inject_Z 0).
  rewrite <- Zle_Qle. lia.
Qed.

Lemma resample_loop_enough rrTimes_s rr_s tEnd fs :
  0 < fs ->
  forall fuel currentTime sourceIndex t y,
  (tEnd - currentTime) * fs < Num.of_nat fuel ->
  resample_loop fuel rrTimes_s rr_s tEnd (1 / fs) currentTime sourceIndex t y
  <> None.
Proof.
  intros Hfs.
  induction fuel as [|fuel IH]; intros currentTime sourceIndex t y Hfuel;
    simpl.
  - destruct (Num.leb currentTime tEnd) eqn:E; [|discriminate].
    apply leb_true_iff in E. exfalso.
    assert (0 <= (tEnd - currentTime) * fs)
      by (apply Qmult_le_0_compat; lra).
    change (Num.of_nat 0) with 0 in Hfuel. lra.
  - destruct (Num.leb currentTime tEnd) eqn:E; [|discriminate].
    assert (Hnext : (tEnd - (currentTime + 1 / fs)) * fs < Num.of_nat fuel).
    { rewrite of_nat_succ in Hfuel.
      assert (Heq : (tEnd - (currentTime + 1 / fs)) * fs
                    == (tEnd - currentTime) * fs - 1) by (field; lra).
      rewrite Heq. lra. }
    destruct (Num.leb _ 0); now apply IH.
Qed.

(** For a positive sample rate the iterations allowed by [resample_fuel]
    are enough: [resampleRrToUniform_run] is [resampleRrToUniform]. *)
Lemma resampleRrToUniform_terminates (rrTimes_s rr_s : list Q) (fs : Q) :
  0 < fs ->
  resampleRrToUniform (resample_fuel rrTimes_s fs) rrTimes_s rr_s fs
  = Some (resampleRrToUniform_run rrTimes_s rr_s fs).
Proof.
  intro Hfs. unfold resampleRrToUniform_run.
  destruct (resampleRrToUniform _ _ _ _) as [r|] eqn:E; [reflexivity|].
  exfalso. unfold resampleRrToUniform in E.
  destruct (_ || _); [discriminate|].
  destruct (Num.leb _ _); [discriminate|].
  destruct (resample_loop _ _ _ _ _ _ _ _ _) as [[t y]|] eqn:El;
    [discriminate|].
  revert El. apply resample_loop_enough; [exact Hfs|].
  unfold resample_fuel.
  set (x := (nth (length rrTimes_s - 1) rrTimes_s 0 - nth 0 rrTimes_s 0) * fs).
  pose proof (Qlt_floor x) as Hx.
  eapply Qlt_le_trans; [exact Hx|].
  unfold Num.of_nat. rewrite <- Zle_Qle. lia.
Qed.


(** ** welchPsd *)

Lemma nth_map_seq {A : Type} (g : nat -> A) (d : A) (n k : nat) :
  (k < n)%nat -> nth k (map g (seq 0 n)) d = g k.
Proof.
  intro Hk.
  rewrite (nth_indep _ d (g 0%nat)) by (rewrite length_map, length_seq; lia).
  rewrite map_nth, seq_nth by lia. reflexivity.
Qed.

Lemma highestPowerOfTwo_spec (n : nat) :
  (highestPowerOfTwo n <= n)%nat
  /\ ((1 <= n)%nat ->
      exists e, highestPowerOfTwo n = (2 ^ e)%nat
                /\ (n < 2 * highestPowerOfTwo n)%nat).
Proof.
  unfold highestPowerOfTwo.
  destruct (n <? 1)%nat eqn:E.
  - apply Nat.ltb_lt in E. split; lia.
  - apply Nat.ltb_ge in E.
    destruct (Nat.log2_spec n) as [Hlo Hhi]; [lia|].
    split; [exact Hlo|]. intros _. exists (Nat.log2 n).
    split; [reflexivity|]. rewrite Nat.pow_succ_r' in Hhi. exact Hhi.
Qed.

Lemma half_step (usableLength : nat) :
  (2 <= usableLength)%nat ->
  Z.to_nat (Z.max 1 (Num.floor (Num.of_nat usableLength * (1 - (1 # 2)))))
  = (usableLength / 2)%nat.
Proof.
  intro HL.
  assert (Hfloor : Num.floor (Num.of_nat usableLength * (1 - (1 # 2)))
                   = Z.of_nat (usableLength / 2)).
  { rewrite Nat2Z.inj_div. change (1 - (1 # 2)) with (1 # 2).
    unfold Num.floor, Num.of_nat, Qfloor, Qmult, inject_Z. simpl.
    now rewrite Z.mul_1_r. }
  rewrite Hfloor.
  assert (1 <= usableLength / 2)%nat
    by (apply Nat.div_le_lower_bound; lia).
  lia.
Qed.

Lemma loop_starts_closed (len usableLength step : nat) :
  (1 <= step)%nat ->
  forall fuel start,
  (len < fuel + start + usableLength)%nat ->
  loop_starts fuel len usableLength step start
  = map (fun j => (start + j * step)%nat)
      (seq 0 (if (start + usableLength <=? len)%nat
              then (len - usableLength - start) / step + 1 else 0)).
Proof.
  intro Hstep.
  induction fuel as [|fuel IH]; intros start Hfuel; simpl.
  - destruct (start + usableLength <=? len)%nat eqn:E; [|reflexivity].
    apply Nat.leb_le in E. lia.
  - destruct (start + usableLength <=? len)%nat eqn:E; [|reflexivity].
    apply Nat.leb_le in E.
    rewrite IH by lia.
    assert (Hn : (if (start + step + usableLength <=? len)%nat
                  then (len - usableLength - (start + step)) / step + 1
                  else 0)%nat
                 = ((len - usableLength - start) / step)%nat).
    { destruct (start + step + usableLength <=? len)%nat eqn:E'.
      - apply Nat.leb_le in E'.
        replace (len - usableLength - start)%nat
          with (len - usableLength - (start + step) + 1 * step)%nat by lia.
        rewrite Nat.div_add by lia. reflexivity.
      - apply Nat.leb_gt in E'. rewrite Nat.div_small by lia. reflexivity. }
    rewrite Hn.
    replace ((len - usableLength - start) / step + 1)%nat
      with (S ((len - usableLength - start) / step)) by lia.
    cbn [seq map]. f_equal; [lia|].
    rewrite <- seq_shift, map_map. apply map_ext. intro j. simpl. lia.
Qed.

Lemma sum_over_scale (c : Q) (g : nat -> Q) (l : list nat) :
  sum_over (fun j => c * g j) l == c * sum_over g l.
Proof.
  induction l as [|j l IH]; simpl; [lra|]. rewrite IH. lra.
Qed.

Section Welch.

Context {M : MathLib}.
Variables (signal window : list Q) (fs windowPower : Q).
Variables (usableLength bins step : nat).

(** The loop accumulates the periodograms of the segments it visits and
    counts them. *)
Lemma welch_loop_sums : forall fuel start accumulated segmentCount,
  length accumulated = bins ->
  let out := welch_loop fuel signal window fs windowPower usableLength bins
               step start accumulated segmentCount in
  let starts := loop_starts fuel (length signal) usableLength step start in
  length (fst out) = bins
  /\ snd out = (segmentCount + length starts)%nat
  /\ forall k, (k < bins)%nat ->
       nth k (fst out) 0
       == nth k accumulated 0
          + sum_over
              (fun s => nth k (segment_powers signal window fs windowPower
                                 usableLength bins s) 0) starts.
Proof.
  induction fuel as [|fuel IH]; intros start accumulated segmentCount Hacc;
    simpl.
  - repeat split; [exact Hacc | lia | intros; lra].
  - destruct (start + usableLength <=? length signal)%nat; simpl.
    + set (powers := segment_powers signal window fs windowPower
                       usableLength bins start).
      set (accumulated' :=
             map (fun k => nth k accumulated 0 + nth k powers 0)
                 (seq 0 bins)).
      destruct (IH (start + step)%nat accumulated' (segmentCount + 1)%nat)
        as (Hlen & Hcount & Hsum).
      { unfold accumulated'. now rewrite length_map, length_seq. }
      repeat split; [exact Hlen | rewrite Hcount; lia |].
      intros k Hk. rewrite (Hsum k Hk). unfold accumulated'.
      rewrite nth_map_seq by exact Hk. lra.
    + repeat split; [exact Hacc | lia | intros; lra].
Qed.

End Welch.

Lemma segment_starts_loop (len usableLength step : nat) :
  (1 <= step)%nat ->
  loop_starts (S len) len usableLength step 0
  = segment_starts len usableLength step.
Proof.
  intro Hstep. rewrite (loop_starts_closed len usableLength step Hstep) by lia.
  unfold segment_starts. cbn [Nat.add]. rewrite Nat.sub_0_r.
  destruct (usableLength <=? len)%nat; reflexivity.
Qed.

Lemma segment_starts_length (len usableLength step : nat) :
  (usableLength <= len)%nat ->
  (1 <= length (segment_starts len usableLength step))%nat.
Proof.
  intro HL. unfold segment_starts.
  apply Nat.leb_le in HL. rewrite HL, length_map, length_seq. lia.
Qed.

(** With at least 16 usable samples [welchPsd] returns one bin per
    frequency, made of the accumulated periodograms of the full segments. *)
Lemma welchPsd_bins `{MathLib} (signal : list Q) (fs : Q) :
  let usableLength := highestPowerOfTwo (Nat.min 256 (length signal)) in
  let bins := (usableLength / 2 + 1)%nat in
  let window := hann_window usableLength in
  let windowPower :=
    fold_left (fun sum value => sum + value * value) window 0 in
  let starts := segment_starts (length signal) usableLength (usableLength / 2) in
  (16 <= usableLength)%nat ->
  (1 <= length starts)%nat
  /\ exists accumulated : list Q,
       welchPsd_default signal fs
       = {| psd_f :=
              map (fun k => (Num.of_nat k * fs) / Num.of_nat usableLength)
                  (seq 0 bins);
            psd_p :=
              map (fun k =>
                     let power :=
                       nth k accumulated 0 / Num.of_nat (length starts) in
                     if (0 <? k)%nat && (k <? bins - 1)%nat
                     then power * 2 else power)
                  (seq 0 bins) |}
       /\ forall k, (k < bins)%nat ->
            nth k accumulated 0
            == sum_over
                 (fun s => nth k (segment_powers signal window fs windowPower
                                    usableLength bins s) 0) starts.
Proof.
  intros usableLength bins window windowPower starts HL.
  assert (Hlen : (usableLength <= length signal)%nat).
  { pose proof (proj1 (highestPowerOfTwo_spec (Nat.min 256 (length signal))))
      as Hspec.
    fold usableLength in Hspec. lia. }
  pose proof (segment_starts_length (length signal) usableLength
                (usableLength / 2) Hlen) as Hstarts.
  fold starts in Hstarts.
  split; [exact Hstarts|].
  assert (Hstep : (1 <= usableLength / 2)%nat)
    by (apply Nat.div_le_lower_bound; lia).
  unfold welchPsd_default, welchPsd. fold usableLength.
  destruct (usableLength <? 16)%nat eqn:E;
    [apply Nat.ltb_lt in E; lia|].
  rewrite half_step by lia.
  fold bins window windowPower.
  pose proof (welch_loop_sums signal window fs windowPower usableLength bins
                (usableLength / 2) (S (length signal)) 0 (repeat 0 bins) 0
                (repeat_length 0 bins)) as Hloop.
  cbv zeta in Hloop.
  rewrite (segment_starts_loop _ _ _ Hstep) in Hloop. fold starts in Hloop.
  destruct (welch_loop _ _ _ _ _ _ _ _ _ _ _) as [accumulated segmentCount].
  destruct Hloop as (_ & Hcount & Hsum). simpl in Hcount, Hsum.
  subst segmentCount.
  destruct (length starts =? 0)%nat eqn:E0;
    [apply Nat.eqb_eq in E0; lia|].
  exists accumulated. split; [reflexivity|].
  intros k Hk. rewrite (Hsum k Hk).
  rewrite nth_repeat. lra.
Qed.

(** C6.  [welchPsd] works on the largest power of two below
    [min 256 (length signal)] and returns the empty PSD exactly when that
    length is under 16.  Otherwise it returns [length / 2 + 1] bins, bin [k]
    at frequency [k * fs / length], its power the average over all the full
    segments (at starts 0, length/2, 2 length/2, ...) of the single-sided
    periodogram of the segment. *)
Theorem welchPsd_shape `{MathLib} (signal : list Q) (fs : Q) :
  0 < fs ->
  let usableLength := highestPowerOfTwo (Nat.min 256 (length signal)) in
  let bins := (usableLength / 2 + 1)%nat in
  let window := hann_window usableLength in
  let windowPower :=
    fold_left (fun sum value => sum + value * value) window 0 in
  let starts := segment_starts (length signal) usableLength (usableLength / 2) in
  let psd := welchPsd_default signal fs in
  ((usableLength <= Nat.min 256 (length signal))%nat
   /\ ((1 <= Nat.min 256 (length signal))%nat ->
       exists e, usableLength = (2 ^ e)%nat
                 /\ (Nat.min 256 (length signal) < 2 * usableLength)%nat))
  /\ (psd = {| psd_f := []; psd_p := [] |} <-> (usableLength < 16)%nat)
  /\ ((16 <= usableLength)%nat ->
      length (psd_f psd) = bins
      /\ length (psd_p psd) = bins
      /\ (1 <= length starts)%nat
      /\ forall k, (k < bins)%nat ->
           nth k (psd_f psd) 0
             = (Num.of_nat k * fs) / Num.of_nat usableLength
           /\ nth k (psd_p psd) 0
              == sum_over
                   (fun s =>
                      bin_scale bins k
                      * nth k (segment_powers signal window fs windowPower
                                 usableLength bins s) 0) starts
                 / Num.of_nat (length starts)).
Proof.
  intros _ usableLength bins window windowPower starts psd.
  split; [apply highestPowerOfTwo_spec|].
  assert (Hfull : (16 <= usableLength)%nat ->
            length (psd_f psd) = bins
            /\ length (psd_p psd) = bins
            /\ (1 <= length starts)%nat
            /\ forall k, (k < bins)%nat ->
                 nth k (psd_f psd) 0
                   = (Num.of_nat k * fs) / Num.of_nat usableLength
                 /\ nth k (psd_p psd) 0
                    == sum_over
                         (fun s =>
                            bin_scale bins k
                            * nth k (segment_powers signal window fs
                                       windowPower usableLength bins s) 0)
                         starts
                       / Num.of_nat (length starts)).
  { intro HL.
    destruct (welchPsd_bins signal fs HL) as (Hstarts & accumulated & Hpsd & Hacc).
    fold usableLength bins window windowPower starts in Hstarts, Hpsd, Hacc.
    subst psd. rewrite Hpsd. cbn [psd_f psd_p].
    rewrite !length_map, !length_seq.
    split; [reflexivity|]. split; [reflexivity|]. split; [exact Hstarts|].
    intros k Hk. split.
    - now rewrite nth_map_seq.
    - rewrite nth_map_seq by assumption. cbv zeta.
      rewrite sum_over_scale. unfold bin_scale.
      destruct ((0 <? k)%nat && (k <? bins - 1)%nat);
        rewrite (Hacc k Hk); unfold Qdiv; ring. }
  split; [|exact Hfull].
  split.
  - intro Hempty.
    destruct (Nat.lt_ge_cases usableLength 16) as [Hlt|Hge]; [exact Hlt|].
    destruct (Hfull Hge) as (Hf & _). rewrite Hempty in Hf. simpl in Hf.
    subst bins. lia.
  - intro Hlt. subst psd. unfold welchPsd_default, welchPsd.
    fold usableLength. apply Nat.ltb_lt in Hlt. now rewrite Hlt.
Qed.

(** ** computeSignalQuality *)

Lemma clamp_bounds (value lo hi : Q) :
  lo <= hi -> lo <= clamp value lo hi <= hi.
Proof.
  intro H. unfold clamp. split.
  - apply Q.min_glb; [exact H | apply Q.le_max_l].
  - apply Q.le_min_l.
Qed.

Lemma clamp_comp (x y lo hi : Q) : x == y -> clamp x lo hi == clamp y lo hi.
Proof.
  intro Hxy. unfold clamp.
  destruct (Q.max_spec lo x) as [[? ->]|[? ->]],
           (Q.max_spec lo y) as [[? ->]|[? ->]];
    try reflexivity; try lra;
    destruct (Q.min_spec hi x) as [[? Hx]|[? Hx]],
             (Q.min_spec hi y) as [[? Hy]|[? Hy]];
    rewrite ?Hx, ?Hy; lra.
Qed.

Lemma round_percent (x : Q) : 0 <= x <= 100 -> (0 <= Num.round x <= 100)%Z.
Proof.
  intros [H0 H100]. unfold Num.round. split.
  - change 0%Z with (Qfloor 0). apply Qfloor_resp_le. lra.
  - change 100%Z with (Qfloor (100 + (1 # 2))). apply Qfloor_resp_le. lra.
Qed.

Lemma nth_nonneg (l : list Q) (k : nat) :
  Forall (fun x => 0 <= x) l -> 0 <= nth k l 0.
Proof.
  intro HF. destruct (Nat.lt_ge_cases k (length l)) as [Hk|Hk].
  - rewrite Forall_forall in HF. apply HF, nth_In, Hk.
  - rewrite nth_overflow by exact Hk. lra.
Qed.

Lemma sort_insert_Forall (P : Q -> Prop) (x : Q) (l : list Q) :
  P x -> Forall P l -> Forall P (sort_insert x l).
Proof.
  intros Hx. induction 1 as [|y l Hy Hl IH]; simpl.
  - repeat constructor. exact Hx.
  - destruct (Num.leb x y); repeat constructor; assumption.
Qed.

Lemma sort_Forall (P : Q -> Prop) (l : list Q) :
  Forall P l -> Forall P (sort l).
Proof.
  induction 1 as [|x l Hx Hl IH]; simpl; [constructor|].
  now apply sort_insert_Forall.
Qed.

Lemma median_nonneg (values : list Q) :
  Forall (fun x => 0 <= x) values -> 0 <= median values.
Proof.
  intro HF. unfold median.
  destruct (length values =? 0)%nat; [lra|]. cbv zeta.
  pose proof (sort_Forall _ _ HF) as HS.
  pose proof (nth_nonneg (sort values)) as Hnth.
  destruct (length (sort values) mod 2 =? 0)%nat.
  - pose proof (Hnth (length (sort values) / 2 - 1)%nat HS).
    pose proof (Hnth (length (sort values) / 2)%nat HS).
    apply Qle_shift_div_l; lra.
  - now apply Hnth.
Qed.

Lemma window_mad_nonneg (inRange : list Q) : 0 <= window_mad inRange.
Proof.
  unfold window_mad. apply median_nonneg, Forall_map, Forall_forall.
  intros rr _. apply Qabs_nonneg.
Qed.

(** C9, as amended.  The outlier test of the signal-quality monitor works on
    the whole window: when the MAD is positive a sample is an outlier iff
    [|value - median| > 3 * 1.4826 * MAD], the rule of the artifact filter;
    when the MAD is 0 the threshold is the constant 0.18 s, and a sample is
    an outlier iff [|value - median| > 0.18].  [outlierRatio] is the share of
    such samples in the window. *)
Theorem quality_outlier_rule (inRange : list Q) :
  let med := median inRange in
  let mad := window_mad inRange in
  0 <= mad
  /\ (0 < mad ->
      forall rr, quality_isOutlier inRange rr = true
                 <-> 3 * (14826 # 10000) * mad < Qabs (rr - med))
  /\ (mad == 0 ->
      forall rr, quality_isOutlier inRange rr = true
                 <-> 18 # 100 < Qabs (rr - med))
  /\ quality_outlierCount inRange
     = length (filter (quality_isOutlier inRange) inRange)
  /\ (inRange <> [] ->
      quality_outlierRatio inRange
      = Num.of_nat (quality_outlierCount inRange)
        / Num.of_nat (length inRange)).
Proof.
  intros med mad.
  split; [apply window_mad_nonneg|].
  split; [|split; [|split; [reflexivity|]]].
  - intros Hmad rr. unfold quality_isOutlier, quality_threshold. cbv zeta.
    fold med. change (median (map _ inRange)) with mad.
    apply ltb_true_iff in Hmad. rewrite Hmad. apply ltb_true_iff.
  - intros Hmad rr. unfold quality_isOutlier, quality_threshold. cbv zeta.
    fold med. change (median (map _ inRange)) with mad.
    assert (E : Num.ltb 0 mad = false) by (apply ltb_false_iff; lra).
    rewrite E. apply ltb_true_iff.
  - intro Hne. unfold quality_outlierRatio.
    destruct inRange; [contradiction|reflexivity].
Qed.

(** C9 fails as stated: in [late_beat_window] the MAD is 0, and the late
    beat, 1 s off the median, is flagged all the same: the outlier ratio is
    1/6, not 0. *)
Lemma quality_outlier_at_zero_mad :
  in_range (map Num.Finite late_beat_window) = late_beat_window
  /\ median late_beat_window == 1
  /\ window_mad late_beat_window == 0
  /\ quality_isOutlier late_beat_window 2 = true
  /\ quality_outlierCount late_beat_window = 1%nat
  /\ quality_outlierRatio late_beat_window == 1 # 6
  /\ ~ quality_outlierRatio late_beat_window == 0.
Proof.
  repeat split; try reflexivity.
  vm_compute. discriminate.
Qed.

(** ** The statements at concrete inputs *)

Lemma cleanRrSeries_subsequence_witness :
  exists out : CleanedRrData,
    cleanRrSeries scenario_times scenario_values no_options = Ok out
    /\ length (cleaned_rrTimes_s out) = length (cleaned_rr_s out)
    /\ Subseq (map raw_sample
                 (combine (cleaned_rrTimes_s out) (cleaned_rr_s out)))
              (filter (passes_range (3 # 10) 2)
                 (combine scenario_times scenario_values))
    /\ Forall (fun v => 3 # 10 <= v <= 2) (cleaned_rr_s out).
Proof.
  apply (cleanRrSeries_subsequence scenario_times scenario_values).
  reflexivity.
Defined.

(** The 5 s interval and the NaN go in the range filter; the five regular
    beats all survive the Hampel pass. *)
Example cleanRrSeries_scenario :
  cleanRrSeries scenario_times scenario_values no_options
  = Ok {| cleaned_rrTimes_s :=
            [80 # 100; 160 # 100; 242 # 100; 820 # 100; 901 # 100];
          cleaned_rr_s := [80 # 100; 80 # 100; 82 # 100; 78 # 100; 81 # 100] |}.
Proof. vm_compute. reflexivity. Qed.

(** A tie keeps the earlier point. *)
Example summarize_tie :
  option_map frequencyHz (best (summarize tied_points)) = Some (8 # 100).
Proof. reflexivity. Qed.

Lemma welchPsd_shape_witness :
  @welchPsd_default approxMath (repeat 1 20) 4
    = {| psd_f := []; psd_p := [] |}
  <-> (highestPowerOfTwo (Nat.min 256 (length (repeat 1 20))) < 16)%nat.
Proof.
  apply (@welchPsd_shape approxMath (repeat 1 20) 4). reflexivity.
Defined.

(** Twenty samples give one 16-sample segment and 9 bins, 0.25 Hz apart. *)
Example welchPsd_bins_of_twenty :
  psd_f (@welchPsd_default approxMath (repeat 1 20) 4)
  = map (fun k => (Num.of_nat k * 4) / Num.of_nat 16) (seq 0 9).
Proof. lazy. reflexivity. Qed.

Example welchPsd_too_short :
  @welchPsd_default approxMath (repeat 1 15) 4
  = {| psd_f := []; psd_p := [] |}.
Proof. reflexivity. Qed.

(** Six steady, fresh beats score 100. *)
Example computeSignalQuality_steady :
  @computeSignalQuality approxMath (steady_values 6) 0
  = {| quality_score := 100; quality_label := "Excellent" |}.
Proof. vm_compute. reflexivity. Qed.

(** A window that went stale scores 0 and reads "No RR Signal". *)
Example computeSignalQuality_stale :
  @computeSignalQuality approxMath (steady_values 6) 9000
  = {| quality_score := 0; quality_label := "No RR Signal" |}.
Proof. vm_compute. reflexivity. Qed.

(** With no sample at all the scan makes six zero points without the
    worker, and the first candidate frequency is the best. *)
Example performCalibrationSummary_empty :
  match performCalibrationSummary None [] [] with
  | (posted, Fulfilled summary) =>
      posted = []
      /\ map score (scanned summary) = [0; 0; 0; 0; 0; 0]
      /\ option_map frequencyHz (best summary) = Some (7 # 100)
  | _ => False
  end.
Proof. vm_compute. repeat split; reflexivity. Qed.

(** * Further properties of the pipeline *)

(** ** The PSD that welchPsd returns *)

Lemma Qdiv_nonneg (a b : Q) : 0 <= a -> 0 <= b -> 0 <= a / b.
Proof.
  intros Ha Hb. unfold Qdiv.
  apply Qmult_le_0_compat; [exact Ha | now apply Qinv_le_0_compat].
Qed.

Lemma Qsquare_nonneg (a : Q) : 0 <= a * a.
Proof.
  destruct (Qlt_le_dec a 0) as [H|H].
  - setoid_replace (a * a) with ((- a) * (- a)) by ring.
    apply Qmult_le_0_compat; lra.
  - now apply Qmult_le_0_compat.
Qed.

Lemma sum_squares_nonneg (l : list Q) : forall acc,
  0 <= acc -> 0 <= fold_left (fun sum value => sum + value * value) l acc.
Proof.
  induction l as [|x l IH]; intros acc Hacc; simpl; [exact Hacc|].
  apply IH. pose proof (Qsquare_nonneg x). lra.
Qed.

Lemma sum_over_nonneg (g : nat -> Q) (l : list nat) :
  (forall j, 0 <= g j) -> 0 <= sum_over g l.
Proof.
  intro Hg. induction l as [|j l IH]; simpl; [lra|].
  pose proof (Hg j). lra.
Qed.

Section WelchInvariant.

Context {M : MathLib}.

Lemma bin_power_nonneg segment window segmentMean fs windowPower L k :
  0 <= fs -> 0 <= windowPower ->
  0 <= bin_power segment window segmentMean fs windowPower L k.
Proof.
  intros Hfs Hw. unfold bin_power.
  destruct (fold_left _ _ _) as [re im].
  apply Qdiv_nonneg.
  - pose proof (Qsquare_nonneg re). pose proof (Qsquare_nonneg im). lra.
  - now apply Qmult_le_0_compat.
Qed.

Lemma segment_powers_nonneg signal window fs windowPower L bins start k :
  0 <= fs -> 0 <= windowPower ->
  0 <= nth k (segment_powers signal window fs windowPower L bins start) 0.
Proof.
  intros Hfs Hw. apply nth_nonneg. unfold segment_powers.
  apply Forall_map, Forall_forall. intros j _.
  now apply bin_power_nonneg.
Qed.

End WelchInvariant.

Lemma strictly_increasing_cons (x y : Q) (l : list Q) :
  strictly_increasing (x :: y :: l)
  = Num.ltb x y && strictly_increasing (y :: l).
Proof. reflexivity. Qed.

Lemma frequency_axis_increasing (fs : Q) (L : nat) :
  0 < fs -> (0 < L)%nat ->
  forall n a,
  strictly_increasing
    (map (fun k => (Num.of_nat k * fs) / Num.of_nat L) (seq a n)) = true.
Proof.
  intros Hfs HL. induction n as [|n IH]; intro a; [reflexivity|].
  destruct n as [|n]; [reflexivity|].
  specialize (IH (S a)). cbn [seq map] in IH |- *.
  rewrite strictly_increasing_cons, IH, andb_true_r. apply ltb_true_iff.
  assert (HLq : 0 < Num.of_nat L).
  { unfold Num.of_nat. change 0 with (inject_Z 0). rewrite <- Zlt_Qlt. lia. }
  unfold Qdiv. apply Qmult_lt_compat_r; [now apply Qinv_lt_0_compat|].
  rewrite of_nat_succ. lra.
Qed.

Lemma welchPsd_invariant `{MathLib} (signal : list Q) (fs : Q) :
  0 < fs ->
  let psd := welchPsd_default signal fs in
  length (psd_f psd) = length (psd_p psd)
  /\ strictly_increasing (psd_f psd) = true
  /\ Forall (fun power => 0 <= power) (psd_p psd).
Proof.
  intros Hfs psd.
  destruct (Nat.lt_ge_cases
              (highestPowerOfTwo (Nat.min 256 (length signal))) 16)
    as [Hlt|Hge].
  - subst psd. unfold welchPsd_default, welchPsd.
    apply Nat.ltb_lt in Hlt. rewrite Hlt. simpl.
    repeat split. constructor.
  - destruct (welchPsd_bins signal fs Hge) as (Hstarts & accumulated & Hpsd & Hacc).
    subst psd. rewrite Hpsd. cbn [psd_f psd_p].
    split; [now rewrite !length_map|].
    split; [apply frequency_axis_increasing; [exact Hfs|lia]|].
    apply Forall_forall. intros power Hin.
    apply in_map_iff in Hin. destruct Hin as (k & <- & Hk).
    apply in_seq in Hk. cbv zeta.
    assert (Hk0 : 0 <= nth k accumulated 0).
    { rewrite Hacc by lia. apply sum_over_nonneg. intro s.
      apply segment_powers_nonneg; [lra|].
      apply sum_squares_nonneg. lra. }
    assert (Hq : 0 <= nth k accumulated 0
                      / Num.of_nat
                          (length (segment_starts (length signal)
                             (highestPowerOfTwo (Nat.min 256 (length signal)))
                             (highestPowerOfTwo (Nat.min 256 (length signal)) / 2)))).
    { apply Qdiv_nonneg; [exact Hk0 | apply of_nat_nonneg]. }
    destruct (_ && _); lra.
Qed.

(** X1.  For a positive sample rate the PSD of [welchPsd] is well formed:
    as many powers as frequencies, frequencies strictly increasing, no
    negative power -- whatever [Math.cos] and [Math.sin] return. *)
Theorem welchPsd_well_formed `{MathLib} (signal : list Q) (fs : Q) :
  0 < fs ->
  let psd := welchPsd_default signal fs in
  length (psd_f psd) = length (psd_p psd)
  /\ strictly_increasing (psd_f psd) = true
  /\ Forall (fun power => 0 <= power) (psd_p psd).
Proof. exact (welchPsd_invariant signal fs). Qed.

Lemma welchPsd_well_formed_witness :
  Forall (fun power => 0 <= power)
    (psd_p (@welchPsd_default approxMath (repeat 1 20) 4)).
Proof.
  apply (@welchPsd_well_formed approxMath (repeat 1 20) 4). reflexivity.
Defined.

(** ** analyze, end to end *)

Lemma resampleRrToUniform_run_fs (rrTimes_s rr_s : list Q) (fs : Q) :
  signal_fs (resampleRrToUniform_run rrTimes_s rr_s fs) = fs.
Proof.
  unfold resampleRrToUniform_run.
  destruct (resampleRrToUniform _ _ _ _) as [r|] eqn:E; [|reflexivity].
  unfold resampleRrToUniform in E.
  destruct (_ || _); [now inversion E|].
  destruct (Num.leb _ _); [now inversion E|].
  destruct (resample_loop _ _ _ _ _ _ _ _ _) as [[t y]|];
    [now inversion E | discriminate].
Qed.

Lemma integrateBand_halves (psd : PsdData) (a b c : Q) :
  Forall (fun x => 0 <= x) (psd_p psd) ->
  a <= b -> b <= c ->
  integrateBand psd a c <= integrateBand psd a b + integrateBand psd b c.
Proof.
  intros Hp Hab Hbc.
  pose proof (band_sum_split psd a b c (band_indices psd) Hab Hbc) as Hsplit.
  rewrite <- !integrateBand_sum in Hsplit.
  pose proof (integrateBand_nonneg psd Hp b b). lra.
Qed.

Lemma analyze_consistent `{MathLib}
    (rrTimes_s rr_s : list Num.number) (targetHz : Q) :
  length rrTimes_s = length rr_s ->
  exists result,
    analyze rrTimes_s rr_s targetHz = Ok result
    /\ cleanRrSeries rrTimes_s rr_s no_options = Ok (result_cleaned result)
    /\ 0 <= coherenceScore (m_coherence (result_metrics result)) <= 1
    /\ 0 <= targetBandPower (m_coherence (result_metrics result))
         <= totalPower (result_metrics result)
    /\ 0 <= lfPower (result_metrics result)
         <= totalPower (result_metrics result)
    /\ 0 <= hfPower (result_metrics result)
         <= totalPower (result_metrics result)
    /\ totalPower (result_metrics result)
       <= lfPower (result_metrics result) + hfPower (result_metrics result).
Proof.
  intro Hlen. unfold analyze.
  destruct (cleanRrSeries_ok rrTimes_s rr_s no_options Hlen) as [out ->].
  eexists. split; [reflexivity|]. cbn [result_cleaned result_metrics].
  split; [reflexivity|].
  rewrite resampleRrToUniform_run_fs.
  set (psd := welchPsd_default _ 4).
  assert (Hp : Forall (fun x => 0 <= x) (psd_p psd)).
  { apply (welchPsd_invariant _ 4). reflexivity. }
  cbn [m_coherence lfPower hfPower totalPower].
  unfold computeCoherence. cbn [coherenceScore targetBandPower].
  set (targetLow := Qmax LF_LOW_HZ (targetHz - TARGET_HALF_BAND_HZ)).
  set (targetHigh := Qmin HF_HIGH_HZ (targetHz + TARGET_HALF_BAND_HZ)).
  change (integrateBand psd LF_LOW_HZ HF_HIGH_HZ)
    with (integrateBand psd (4 # 100) (4 # 10)).
  pose proof (integrateBand_nonneg psd Hp targetLow targetHigh) as Ht0.
  assert (Ht1 : integrateBand psd targetLow targetHigh
                <= integrateBand psd (4 # 100) (4 # 10)).
  { apply (integrateBand_mono psd Hp);
      [apply Q.le_max_l | apply Q.le_min_l]. }
  pose proof (integrateBand_nonneg psd Hp (4 # 100) (15 # 100)) as Hlf0.
  pose proof (integrateBand_nonneg psd Hp (15 # 100) (4 # 10)) as Hhf0.
  assert (Hlf1 : integrateBand psd (4 # 100) (15 # 100)
                 <= integrateBand psd (4 # 100) (4 # 10))
    by (apply (integrateBand_mono psd Hp); lra).
  assert (Hhf1 : integrateBand psd (15 # 100) (4 # 10)
                 <= integrateBand psd (4 # 100) (4 # 10))
    by (apply (integrateBand_mono psd Hp); lra).
  assert (Hsum : integrateBand psd (4 # 100) (4 # 10)
                 <= integrateBand psd (4 # 100) (15 # 100)
                    + integrateBand psd (15 # 100) (4 # 10))
    by (apply (integrateBand_halves psd _ _ _ Hp); lra).
  repeat split; try assumption.
  - destruct (Num.ltb 0 _) eqn:E; [|lra].
    apply ltb_true_iff in E. apply Qle_shift_div_l; [exact E|lra].
  - destruct (Num.ltb 0 _) eqn:E; [|lra].
    apply ltb_true_iff in E. apply Qle_shift_div_r; [exact E|lra].
Qed.

(** X2.  On equal-length input [analyze] returns a result, built on the
    series that [cleanRrSeries] returns, whose frequency metrics are
    consistent: the coherence score is in [0, 1], the target-band power is at
    most the total power, LF and HF power are each at most the total power,
    and together they are at least the total power. *)
Theorem analyze_metrics_consistent `{MathLib}
    (rrTimes_s rr_s : list Num.number) (targetHz : Q) :
  length rrTimes_s = length rr_s ->
  exists result,
    analyze rrTimes_s rr_s targetHz = Ok result
    /\ cleanRrSeries rrTimes_s rr_s no_options = Ok (result_cleaned result)
    /\ 0 <= coherenceScore (m_coherence (result_metrics result)) <= 1
    /\ 0 <= targetBandPower (m_coherence (result_metrics result))
         <= totalPower (result_metrics result)
    /\ 0 <= lfPower (result_metrics result)
         <= totalPower (result_metrics result)
    /\ 0 <= hfPower (result_metrics result)
         <= totalPower (result_metrics result)
    /\ totalPower (result_metrics result)
       <= lfPower (result_metrics result) + hfPower (result_metrics result).
Proof. exact (analyze_consistent rrTimes_s rr_s targetHz). Qed.

Lemma analyze_metrics_consistent_witness :
  exists result,
    @analyze approxMath scenario_times scenario_values (1 # 10) = Ok result
    /\ cleanRrSeries scenario_times scenario_values no_options
       = Ok (result_cleaned result)
    /\ 0 <= coherenceScore (m_coherence (result_metrics result)) <= 1
    /\ 0 <= targetBandPower (m_coherence (result_metrics result))
         <= totalPower (result_metrics result)
    /\ 0 <= lfPower (result_metrics result)
         <= totalPower (result_metrics result)
    /\ 0 <= hfPower (result_metrics result)
         <= totalPower (result_metrics result)
    /\ totalPower (result_metrics result)
       <= lfPower (result_metrics result) + hfPower (result_metrics result).
Proof.
  apply (@analyze_metrics_consistent approxMath
           scenario_times scenario_values (1 # 10)).
  reflexivity.
Defined.

(** ** The peak of computeCoherence *)

Lemma peak_fold (psd : PsdData) (n : nat) :
  peak_of psd n (fold_left (peak_step psd) (seq 0 n) (0, 0)).
Proof.
  induction n as [|n IH].
  - simpl. split; [simpl; lra|]. split; [intros i Hi; lia|now left].
  - rewrite seq_S, fold_left_app. simpl.
    destruct (fold_left (peak_step psd) (seq 0 n) (0, 0)) as [pf pp].
    destruct IH as (H0 & Hmax & Hfirst). simpl in H0, Hmax.
    unfold peak_step. cbv zeta. simpl snd.
    unfold peak_of, in_band in *.
    destruct (Num.ltb (nth n (psd_f psd) 0) LF_LOW_HZ) eqn:Elo;
      [apply ltb_true_iff in Elo | apply ltb_false_iff in Elo];
      cbn [orb].
    { split; [exact H0|]. split.
      - intros i Hi Hband. destruct (Nat.eq_dec i n) as [->|Hne];
          [lra | apply Hmax; [lia|exact Hband]].
      - destruct Hfirst as [->|(i & Hi & Hrest)]; [now left|].
        right. exists i. split; [lia|exact Hrest]. }
    destruct (Num.ltb HF_HIGH_HZ (nth n (psd_f psd) 0)) eqn:Ehi;
      [apply ltb_true_iff in Ehi | apply ltb_false_iff in Ehi].
    { split; [exact H0|]. split.
      - intros i Hi Hband. destruct (Nat.eq_dec i n) as [->|Hne];
          [lra | apply Hmax; [lia|exact Hband]].
      - destruct Hfirst as [->|(i & Hi & Hrest)]; [now left|].
        right. exists i. split; [lia|exact Hrest]. }
    destruct (Num.ltb pp (nth n (psd_p psd) 0)) eqn:Epk;
      [apply ltb_true_iff in Epk | apply ltb_false_iff in Epk].
    + simpl. split; [lra|]. split.
      * intros i Hi Hband. destruct (Nat.eq_dec i n) as [->|Hne]; [lra|].
        assert (nth i (psd_p psd) 0 <= pp) by (apply Hmax; [lia|exact Hband]).
        lra.
      * right. exists n. repeat split; try lia; try lra.
        intros j Hj Hband.
        assert (nth j (psd_p psd) 0 <= pp) by (apply Hmax; [lia|exact Hband]).
        lra.
    + simpl. split; [exact H0|]. split.
      * intros i Hi Hband. destruct (Nat.eq_dec i n) as [->|Hne];
          [lra | apply Hmax; [lia|exact Hband]].
      * destruct Hfirst as [Heq|(i & Hi & Hrest)]; [now left|].
        right. exists i. split; [lia|exact Hrest].
Qed.

(** X3.  The peak that [computeCoherence] reports is the first bin of the
    band 0.04-0.4 Hz with the greatest power: no bin of the band has more
    power, every earlier bin of the band has strictly less, and the peak is
    (0, 0) when no bin of the band has positive power. *)
Theorem computeCoherence_peak (psd : PsdData) (targetHz : Q) :
  peak_of psd (length (psd_f psd))
    (peakFrequencyHz (computeCoherence psd targetHz),
     peakPower (computeCoherence psd targetHz)).
Proof.
  unfold computeCoherence. cbn [peakFrequencyHz peakPower].
  rewrite <- surjective_pairing. apply peak_fold.
Qed.

(** In [peaked_psd] the bin at 0.1 Hz wins; the bin at 0.5 Hz is outside
    the band. *)
Example computeCoherence_peak_example :
  peakFrequencyHz (computeCoherence peaked_psd (1 # 10)) = 1 # 10
  /\ peakPower (computeCoherence peaked_psd (1 # 10)) = 8.
Proof. split; reflexivity. Qed.

(** ** The resampled signal *)



Lemma nth_in_bounds (P : Q -> Prop) (l : list Q) (k : nat) :
  Forall P l -> (k < length l)%nat -> P (nth k l 0).
Proof.
  intros HF Hk. rewrite Forall_forall in HF. now apply HF, nth_In.
Qed.


Section Resampler.

Variables (rrTimes_s rr_s : list Q) (tStart tEnd dt lo hi : Q).
Hypothesis lengths : length rrTimes_s = length rr_s.
Hypothesis two_points : (2 <= length rrTimes_s)%nat.
Hypothesis last_time : tEnd = nth (length rrTimes_s - 1) rrTimes_s 0.
Hypothesis step_positive : 0 < dt.
Hypothesis values_bounded : Forall (fun v => lo <= v <= hi) rr_s.


End Resampler.



(** Two beats one second apart give five samples, 0.25 s apart. *)
Example resampleRrToUniform_grid :
  resampleRrToUniform_run [1; 2] [1; 2] 4
  = {| signal_fs := 4;
       signal_t := [1; 1 + 1 / 4; 1 + 1 / 4 + 1 / 4;
                    1 + 1 / 4 + 1 / 4 + 1 / 4;
                    1 + 1 / 4 + 1 / 4 + 1 / 4 + 1 / 4];
       signal_y := signal_y (resampleRrToUniform_run [1; 2] [1; 2] 4) |}
  /\ map Qred (signal_y (resampleRrToUniform_run [1; 2] [1; 2] 4))
     = [1; 5 # 4; 3 # 2; 7 # 4; 2].
Proof. vm_compute. split; reflexivity. Qed.

(** ** median *)

Lemma sort_insert_length (x : Q) (l : list Q) :
  length (sort_insert x l) = S (length l).
Proof.
  induction l as [|y l IH]; simpl; [reflexivity|].
  destruct (Num.leb x y); simpl; [reflexivity|now rewrite IH].
Qed.

Lemma sort_length (l : list Q) : length (sort l) = length l.
Proof.
  induction l as [|x l IH]; simpl; [reflexivity|].
  now rewrite sort_insert_length, IH.
Qed.

Lemma median_bounds (lo hi : Q) (values : list Q) :
  values <> [] ->
  Forall (fun x => lo <= x <= hi) values ->
  lo <= median values <= hi.
Proof.
  intros Hne HF. unfold median.
  destruct (length values =? 0)%nat eqn:E0.
  { apply Nat.eqb_eq, length_zero_iff_nil in E0. contradiction. }
  apply Nat.eqb_neq in E0. cbv zeta.
  pose proof (sort_Forall _ _ HF) as HS.
  pose proof (sort_length values) as HL.
  assert (Hmid : (length (sort values) / 2 < length (sort values))%nat)
    by (apply Nat.div_lt; lia).
  pose proof (nth_in_bounds _ _ _ HS Hmid) as Hb. cbv beta in Hb.
  destruct (length (sort values) mod 2 =? 0)%nat; [|exact Hb].
  assert (Hmid' : (length (sort values) / 2 - 1 < length (sort values))%nat)
    by lia.
  pose proof (nth_in_bounds _ _ _ HS Hmid') as Ha. cbv beta in Ha.
  split; [apply Qle_shift_div_l | apply Qle_shift_div_r]; lra.
Qed.

(** X5.  The median of a non-empty list lies between any two bounds that
    hold for all of its elements: it never leaves the range of the data
    (the median of no value at all is 0). *)
Theorem median_between (lo hi : Q) (values : list Q) :
  values <> [] ->
  Forall (fun x => lo <= x <= hi) values ->
  lo <= median values <= hi.
Proof. exact (median_bounds lo hi values). Qed.

Lemma median_between_witness : 1 <= median [3; 1; 2; 4] <= 4.
Proof.
  apply (median_between 1 4 [3; 1; 2; 4]).
  - discriminate.
  - repeat (constructor; [lra|]). constructor.
Defined.

Example median_examples :
  median [] = 0 /\ median [3; 1; 2] = 2 /\ median [3; 1; 2; 4] == 5 # 2.
Proof. repeat split. Qed.

(** ** Calibration segments *)

Lemma segment_fold rrTimes_s rr_s stepSec index l : forall st,
  fold_left (segment_step rrTimes_s rr_s (Num.of_nat index * stepSec)
               (Num.of_nat (index + 1) * stepSec)) l st
  = (fst st ++ map fst
       (filter (in_step stepSec index)
          (map (fun i => (nth i rrTimes_s Num.NaN, nth i rr_s Num.NaN)) l)),
     snd st ++ map snd
       (filter (in_step stepSec index)
          (map (fun i => (nth i rrTimes_s Num.NaN, nth i rr_s Num.NaN)) l))).
Proof.
  induction l as [|i l IH]; intros [times values]; simpl.
  - now rewrite !app_nil_r.
  - rewrite IH. unfold segment_step, in_step. simpl.
    destruct (_ && _); simpl; [now rewrite <- !app_assoc | reflexivity].
Qed.

Lemma nth_error_combine_seq {A : Type} (l : list A) :
  forall a index i x,
  nth_error (combine (seq a (length l)) l) index = Some (i, x) ->
  i = (a + index)%nat.
Proof.
  induction l as [|y l IH]; intros a index i x H; simpl in H.
  - destruct index; discriminate.
  - destruct index as [|index]; simpl in H.
    + inversion H. lia.
    + apply IH in H. lia.
Qed.

(** X6.  [calculateCalibrationSegments] makes one segment per candidate
    frequency, in order, and on equal-length arrays segment [index] holds
    exactly the samples whose timestamp is finite and within
    [[index * stepSec, (index + 1) * stepSec]], in their order: a sample on
    a boundary goes to both neighbours, a sample past the last step to
    none. *)
Theorem calculateCalibrationSegments_windows
    (rrTimes_s rr_s : list Num.number) (frequenciesHz : list Q) (stepSec : Q) :
  length rrTimes_s = length rr_s ->
  let segments :=
    calculateCalibrationSegments rrTimes_s rr_s frequenciesHz stepSec in
  map segment_frequencyHz segments = frequenciesHz
  /\ forall index segment,
       nth_error segments index = Some segment ->
       combine (segment_rrTimes_s segment) (segment_rr_s segment)
       = filter (in_step stepSec index) (combine rrTimes_s rr_s).
Proof.
  intros Hlen segments. subst segments. unfold calculateCalibrationSegments.
  assert (Hseg : forall frequencyHz index,
            calibration_segment rrTimes_s rr_s stepSec frequencyHz index
            = {| segment_frequencyHz := frequencyHz;
                 segment_rrTimes_s :=
                   map fst (filter (in_step stepSec index)
                              (combine rrTimes_s rr_s));
                 segment_rr_s :=
                   map snd (filter (in_step stepSec index)
                              (combine rrTimes_s rr_s)) |}).
  { intros frequencyHz index. unfold calibration_segment.
    rewrite segment_fold. simpl.
    now rewrite (map_nth_seq_combine Num.NaN Num.NaN rrTimes_s rr_s Hlen). }
  split.
  - rewrite map_map.
    generalize 0%nat. induction frequenciesHz as [|f fs IH]; intro a;
      [reflexivity|].
    simpl. rewrite Hseg. simpl. f_equal. apply IH.
  - intros index segment Hnth.
    rewrite nth_error_map in Hnth.
    destruct (nth_error (combine _ _) index) as [[i f]|] eqn:E;
      [|discriminate].
    simpl in Hnth. inversion Hnth; subst. clear Hnth.
    apply nth_error_combine_seq in E. simpl in E. subst i.
    rewrite Hseg. simpl. apply combine_fst_snd.
Qed.

Lemma calculateCalibrationSegments_windows_witness :
  map segment_frequencyHz
    (calculateCalibrationSegments (steady_times 0 25) (steady_values 25)
       CALIBRATION_FREQUENCIES_HZ CALIBRATION_STEP_SEC)
  = CALIBRATION_FREQUENCIES_HZ.
Proof.
  apply (calculateCalibrationSegments_windows
           (steady_times 0 25) (steady_values 25)
           CALIBRATION_FREQUENCIES_HZ CALIBRATION_STEP_SEC).
  reflexivity.
Defined.

(** The beat at 20 s is in the first and in the second segment. *)
Example calculateCalibrationSegments_boundary :
  map (fun segment => length (segment_rr_s segment))
    (calculateCalibrationSegments (steady_times 0 25) (steady_values 25)
       CALIBRATION_FREQUENCIES_HZ CALIBRATION_STEP_SEC)
  = [20; 6; 0; 0; 0; 0]%nat.
Proof. vm_compute. reflexivity. Qed.

(** ** extractRr *)

Lemma running_sums_app (acc : Q) (l1 l2 : list Q) :
  running_sums acc (l1 ++ l2)
  = running_sums acc l1 ++ running_sums (fold_left Qplus l1 acc) l2.
Proof.
  revert acc. induction l1 as [|x l1 IH]; intro acc; simpl; [reflexivity|].
  now rewrite IH.
Qed.

Lemma running_sums_length (acc : Q) (l : list Q) :
  length (running_sums acc l) = length l.
Proof.
  revert acc. induction l as [|x l IH]; intro acc; simpl; [reflexivity|].
  now rewrite IH.
Qed.

Lemma running_sums_increasing (l : list Q) : forall acc,
  Forall (fun x => 0 < x) l ->
  strictly_increasing (running_sums acc l) = true
  /\ Forall (fun t => acc < t) (running_sums acc l).
Proof.
  induction l as [|x l IH]; intros acc Hpos; cbn [running_sums];
    [split; [reflexivity|constructor]|].
  inversion Hpos as [|? ? Hx Hl]; subst.
  destruct (IH (acc + x) Hl) as [Hinc Hlt].
  split.
  - destruct l as [|y l]; [reflexivity|].
    cbn [running_sums] in *. rewrite strictly_increasing_cons, Hinc.
    rewrite andb_true_r. apply ltb_true_iff.
    inversion Hlt; subst. assumption.
  - constructor; [lra|].
    eapply Forall_impl; [|exact Hlt]. simpl. intros; lra.
Qed.

Lemma extract_fold (l : list Num.number) : forall elapsed rrTimes_s rr_s,
  fold_left extract_step l (elapsed, rrTimes_s, rr_s)
  = (fold_left Qplus (finite_values l) elapsed,
     rrTimes_s ++ running_sums elapsed (finite_values l),
     rr_s ++ finite_values l).
Proof.
  induction l as [|x l IH]; intros elapsed rrTimes_s rr_s; simpl.
  - now rewrite !app_nil_r.
  - destruct x as [value| | |]; simpl; rewrite IH;
      rewrite <- ?app_assoc; reflexivity.
Qed.

Lemma extract_events_fold (rawEvents : list RawEvent) :
  forall elapsed rrTimes_s rr_s,
  fold_left
    (fun st event =>
       fold_left extract_step
         (match event_rr_s event with Some l => l | None => [] end) st)
    rawEvents (elapsed, rrTimes_s, rr_s)
  = (fold_left Qplus (finite_intervals rawEvents) elapsed,
     rrTimes_s ++ running_sums elapsed (finite_intervals rawEvents),
     rr_s ++ finite_intervals rawEvents).
Proof.
  induction rawEvents as [|event rawEvents IH];
    intros elapsed rrTimes_s rr_s; simpl.
  - now rewrite !app_nil_r.
  - rewrite extract_fold, IH.
    rewrite running_sums_app, fold_left_app, <- !app_assoc. reflexivity.
Qed.

Lemma extractRr_sums (rawEvents : list RawEvent) :
  extractRr rawEvents
  = (running_sums 0 (finite_intervals rawEvents),
     finite_intervals rawEvents).
Proof.
  unfold extractRr. now rewrite extract_events_fold.
Qed.

(** X7.  [extractRr] keeps the finite intervals of the events, in order,
    and dates each beat at the sum of the intervals up to it: the two arrays
    have the same length, so [analyze] accepts them, and with positive
    intervals the time axis increases strictly. *)
Theorem extractRr_cumulative `{MathLib} (rawEvents : list RawEvent)
    (targetHz : Q) :
  let rrTimes_s := fst (extractRr rawEvents) in
  let rr_s := snd (extractRr rawEvents) in
  rr_s = finite_intervals rawEvents
  /\ rrTimes_s = running_sums 0 rr_s
  /\ length rrTimes_s = length rr_s
  /\ (Forall (fun x => 0 < x) rr_s -> strictly_increasing rrTimes_s = true)
  /\ exists result,
       analyze (map Num.Finite rrTimes_s) (map Num.Finite rr_s) targetHz
       = Ok result.
Proof.
  intros rrTimes_s rr_s. subst rrTimes_s rr_s.
  rewrite extractRr_sums. cbn [fst snd].
  split; [reflexivity|]. split; [reflexivity|].
  split; [apply running_sums_length|].
  split; [intro Hpos; now apply running_sums_increasing|].
  apply analyze_ok. now rewrite !length_map, running_sums_length.
Qed.

(** Two events; the NaN of the second one is skipped. *)
Example extractRr_example :
  extractRr
    [{| event_t_ms := 0; event_hr := Some 60;
        event_rr_s := Some [Num.Finite 1; Num.Finite (1 # 2)] |};
     {| event_t_ms := 1000; event_hr := None; event_rr_s := None |};
     {| event_t_ms := 2000; event_hr := Some 61;
        event_rr_s := Some [Num.NaN; Num.Finite 1] |}]
  = ([0 + 1; 0 + 1 + (1 # 2); 0 + 1 + (1 # 2) + 1], [1; 1 # 2; 1]).
Proof. reflexivity. Qed.

(** ** RingBuffer *)

Lemma list_set_length {A : Type} (l : list A) : forall n v,
  length (list_set l n v) = length l.
Proof.
  induction l as [|x l IH]; intros [|n] v; simpl; try reflexivity.
  now rewrite IH.
Qed.

Lemma list_set_nth_eq {A : Type} (l : list A) : forall n v d,
  (n < length l)%nat -> nth n (list_set l n v) d = v.
Proof.
  induction l as [|x l IH]; intros [|n] v d Hn; simpl in *; try lia.
  - reflexivity.
  - apply IH. lia.
Qed.

Lemma list_set_nth_neq {A : Type} (l : list A) : forall n m v d,
  n <> m -> nth m (list_set l n v) d = nth m l d.
Proof.
  induction l as [|x l IH]; intros [|n] [|m] v d Hnm; simpl;
    try reflexivity; try contradiction.
  apply IH. lia.
Qed.

Lemma skipn_by_index {A : Type} (h : list A) : forall m c,
  (m + c = length h)%nat ->
  concat (map (fun i => match nth_error h (m + i) with
                        | Some x => [x]
                        | None => []
                        end) (seq 0 c))
  = skipn m h.
Proof.
  induction h as [|a h IH]; intros m c Hlen; simpl in Hlen.
  - assert (c = 0%nat) by lia. subst c. now destruct m.
  - destruct m as [|m].
    + destruct c as [|c]; [lia|]. simpl.
      f_equal. rewrite <- seq_shift, map_map.
      apply (IH 0%nat c). lia.
    + simpl. apply (IH m c). lia.
Qed.

Lemma mod_distinct (capacity n k : Z) :
  (0 < capacity)%Z -> (0 <= k < n)%Z -> (n - k < capacity)%Z ->
  (k mod capacity <> n mod capacity)%Z.
Proof.
  intros Hc Hk Hd Heq.
  assert (Hz : ((n - k) mod capacity = 0)%Z).
  { rewrite Zminus_mod, Heq, Z.sub_diag. now apply Z.mod_0_l, Z.neq_sym, Z.lt_neq. }
  rewrite Z.mod_small in Hz by lia. lia.
Qed.

Section Ring.

Context {T : Type}.

Lemma ring_new (capacity : Z) :
  (0 < capacity)%Z ->
  exists b, RingBuffer_new T capacity = Ok b /\ ring_holds capacity b [].
Proof.
  intro Hc. unfold RingBuffer_new.
  destruct (capacity <=? 0)%Z eqn:E; [apply Z.leb_le in E; lia|].
  eexists. split; [reflexivity|].
  unfold ring_holds. cbn [ring_capacity ring_data ring_writeIndex
                          ring_itemCount length].
  split; [reflexivity|]. split; [exact Hc|].
  split; [apply repeat_length|].
  split; [now rewrite Z.mod_0_l by lia|].
  split; [lia|].
  intros k x Hk. destruct k; discriminate.
Qed.

Lemma ring_push (capacity : Z) (b : RingBuffer T) (history : list T) (x : T) :
  ring_holds capacity b history ->
  ring_holds capacity (RingBuffer_push b x) (history ++ [x]).
Proof.
  intros (Hcap & Hpos & Hlen & Hwi & Hcount & Hslots).
  unfold ring_holds, RingBuffer_push. simpl.
  rewrite Hcap, Hwi, Hcount, length_app. simpl length.
  set (n := Z.of_nat (length history)) in *.
  assert (Hn : Z.of_nat (length history + 1) = (n + 1)%Z) by lia.
  rewrite Hn.
  assert (Hwr : (0 <= n mod capacity < capacity)%Z)
    by (apply Z.mod_pos_bound; exact Hpos).
  assert (Hset : array_set (ring_data b) (n mod capacity) x
                 = list_set (ring_data b) (Z.to_nat (n mod capacity)) (Some x)).
  { unfold array_set.
    destruct (n mod capacity <? 0)%Z eqn:E1; [apply Z.ltb_lt in E1; lia|].
    destruct (n mod capacity <? Z.of_nat (length (ring_data b)))%Z eqn:E2;
      [reflexivity|].
    apply Z.ltb_ge in E2. rewrite Hlen in E2. lia. }
  rewrite Hset.
  split; [reflexivity|]. split; [exact Hpos|].
  split; [now rewrite list_set_length|].
  split.
  { rewrite Z.rem_mod_nonneg by lia. now rewrite Z.add_mod_idemp_l by lia. }
  split; [lia|].
  intros k x0 Hk Hwin.
  destruct (Nat.lt_ge_cases k (length history)) as [Hlt|Hge].
  - rewrite nth_error_app1 in Hk by exact Hlt.
    rewrite list_set_nth_neq.
    + apply Hslots; [exact Hk|lia].
    + intro Heq. apply Z2Nat.inj in Heq; try lia.
      * symmetry in Heq. revert Heq. apply mod_distinct; lia.
      * apply Z.mod_pos_bound; exact Hpos.
  - rewrite nth_error_app2 in Hk by exact Hge.
    destruct (k - length history)%nat as [|d] eqn:Ed;
      [|destruct d; discriminate].
    simpl in Hk. inversion Hk; subst x0.
    assert (k = length history) by lia. subst k. fold n.
    apply list_set_nth_eq. rewrite Hlen. lia.
Qed.

Lemma ring_pushes (capacity : Z) (items : list T) :
  forall (b : RingBuffer T) (history : list T),
  ring_holds capacity b history ->
  ring_holds capacity (fold_left RingBuffer_push items b) (history ++ items).
Proof.
  induction items as [|x items IH]; intros b history H; simpl.
  - now rewrite app_nil_r.
  - replace (history ++ x :: items) with ((history ++ [x]) ++ items)
      by now rewrite <- app_assoc.
    apply IH, ring_push, H.
Qed.

Lemma ring_toArray (capacity : Z) (b : RingBuffer T) (history : list T) :
  ring_holds capacity b history ->
  RingBuffer_toArray b
  = skipn (length history - Z.to_nat capacity) history.
Proof.
  intros (Hcap & Hpos & Hlen & Hwi & Hcount & Hslots).
  unfold RingBuffer_toArray. rewrite Hcap, Hwi, Hcount.
  set (n := Z.of_nat (length history)) in *.
  destruct (Z.min n capacity =? 0)%Z eqn:E0.
  { apply Z.eqb_eq in E0.
    assert (length history = 0%nat) by lia.
    destruct history; [now destruct (0 - Z.to_nat capacity)%nat|discriminate]. }
  apply Z.eqb_neq in E0. cbv zeta.
  rewrite flat_map_concat_map.
  set (m := (length history - Z.to_nat capacity)%nat).
  rewrite <- (skipn_by_index history m (Z.to_nat (Z.min n capacity)))
    by (subst m n; lia).
  f_equal. apply map_ext_in. intros i Hi. apply in_seq in Hi.
  assert (Hwr : (0 <= n mod capacity < capacity)%Z)
    by (apply Z.mod_pos_bound; exact Hpos).
  assert (Hidx : Z.rem
                   (Z.rem (n mod capacity - Z.min n capacity + capacity)
                      capacity + Z.of_nat i) capacity
                 = (Z.of_nat (m + i) mod capacity)%Z).
  { rewrite (Z.rem_mod_nonneg (_ - _ + _)) by lia.
    rewrite Z.rem_mod_nonneg;
      [|pose proof (Z.mod_pos_bound
                      (n mod capacity - Z.min n capacity + capacity)
                      capacity Hpos); lia | exact Hpos].
    rewrite Z.add_mod_idemp_l by lia.
    replace (n mod capacity - Z.min n capacity + capacity + Z.of_nat i)%Z
      with (n mod capacity + (Z.of_nat i - Z.min n capacity + capacity))%Z
      by lia.
    rewrite Z.add_mod_idemp_l by lia.
    replace (n + (Z.of_nat i - Z.min n capacity + capacity))%Z
      with (Z.of_nat (m + i) + 1 * capacity)%Z by (subst m n; lia).
    now rewrite Z_mod_plus_full. }
  rewrite Hidx.
  destruct (nth_error history (m + i)) as [x|] eqn:Ex.
  - unfold array_get.
    destruct (Z.of_nat (m + i) mod capacity <? 0)%Z eqn:Eneg.
    { apply Z.ltb_lt in Eneg.
      pose proof (Z.mod_pos_bound (Z.of_nat (m + i)) capacity Hpos). lia. }
    rewrite (Hslots (m + i)%nat x Ex); [reflexivity|].
    subst m n. lia.
  - apply nth_error_None in Ex. subst m n. lia.
Qed.

(** Every buffer made by the constructor and pushes keeps its array at the
    length of its capacity. *)
Lemma ring_clear (capacity : Z) (b b0 : RingBuffer T) (history : list T) :
  RingBuffer_new T capacity = Ok b0 ->
  ring_holds capacity b history ->
  RingBuffer_clear b = b0.
Proof.
  intros Hnew (Hcap & Hpos & Hlen & _). unfold RingBuffer_new in Hnew.
  destruct (capacity <=? 0)%Z; [discriminate|].
  inversion Hnew; subst b0. unfold RingBuffer_clear.
  now rewrite Hlen, Hcap.
Qed.

End Ring.

(** X8.  A ring buffer of positive capacity that received [items], oldest
    first, returns from [toArray] the last [capacity] of them, in the order
    they were pushed (all of them while fewer were pushed), and its size is
    the number of items it returns. *)
Theorem RingBuffer_keeps_latest (T : Type) (capacity : Z) (items : list T) :
  (0 < capacity)%Z ->
  exists b0,
    RingBuffer_new T capacity = Ok b0
    /\ let b := fold_left RingBuffer_push items b0 in
       RingBuffer_toArray b
         = skipn (length items - Z.to_nat capacity) items
       /\ RingBuffer_size b = Z.min (Z.of_nat (length items)) capacity
       /\ RingBuffer_size b = Z.of_nat (length (RingBuffer_toArray b)).
Proof.
  intro Hpos. destruct (@ring_new T capacity Hpos) as (b0 & Hnew & H0).
  exists b0. split; [exact Hnew|]. cbv zeta.
  pose proof (ring_pushes capacity items b0 [] H0) as H. simpl in H.
  rewrite (ring_toArray capacity _ items H).
  destruct H as (_ & _ & _ & _ & Hcount & _).
  unfold RingBuffer_size. rewrite Hcount, length_skipn.
  repeat split; lia.
Qed.

Lemma RingBuffer_keeps_latest_witness :
  exists b0,
    RingBuffer_new nat 3 = Ok b0
    /\ let b := fold_left RingBuffer_push [1; 2; 3; 4; 5]%nat b0 in
       RingBuffer_toArray b
         = skipn (length [1; 2; 3; 4; 5]%nat - Z.to_nat 3) [1; 2; 3; 4; 5]%nat
       /\ RingBuffer_size b = Z.min (Z.of_nat (length [1; 2; 3; 4; 5]%nat)) 3
       /\ RingBuffer_size b = Z.of_nat (length (RingBuffer_toArray b)).
Proof.
  apply (RingBuffer_keeps_latest nat 3 [1; 2; 3; 4; 5]%nat). reflexivity.
Defined.

(** X9.  [clear] brings a ring buffer back to the state the constructor
    made, whatever was pushed before: it is empty, and it fills up again as
    a new one does. *)
Theorem RingBuffer_clear_resets (T : Type) (capacity : Z)
    (before after : list T) :
  (0 < capacity)%Z ->
  exists b0,
    RingBuffer_new T capacity = Ok b0
    /\ RingBuffer_clear (fold_left RingBuffer_push before b0) = b0
    /\ RingBuffer_toArray (RingBuffer_clear (fold_left RingBuffer_push before b0))
       = []
    /\ RingBuffer_toArray
         (fold_left RingBuffer_push after
            (RingBuffer_clear (fold_left RingBuffer_push before b0)))
       = skipn (length after - Z.to_nat capacity) after.
Proof.
  intro Hpos. destruct (@ring_new T capacity Hpos) as (b0 & Hnew & H0).
  exists b0. split; [exact Hnew|].
  pose proof (ring_pushes capacity before b0 [] H0) as Hb. simpl in Hb.
  rewrite (ring_clear capacity _ b0 before Hnew Hb).
  split; [reflexivity|]. split.
  - rewrite (ring_toArray capacity b0 [] H0). now destruct (_ - _)%nat.
  - pose proof (ring_pushes capacity after b0 [] H0) as Ha. simpl in Ha.
    apply (ring_toArray capacity _ after Ha).
Qed.

Lemma RingBuffer_clear_resets_witness :
  exists b0,
    RingBuffer_new nat 2 = Ok b0
    /\ RingBuffer_clear (fold_left RingBuffer_push [7; 8; 9]%nat b0) = b0
    /\ RingBuffer_toArray
         (RingBuffer_clear (fold_left RingBuffer_push [7; 8; 9]%nat b0))
       = []
    /\ RingBuffer_toArray
         (fold_left RingBuffer_push [1]%nat
            (RingBuffer_clear (fold_left RingBuffer_push [7; 8; 9]%nat b0)))
       = skipn (length [1]%nat - Z.to_nat 2) [1]%nat.
Proof.
  apply (RingBuffer_clear_resets nat 2 [7; 8; 9]%nat [1]%nat). reflexivity.
Defined.

Example RingBuffer_example :
  RingBuffer_new nat 0 = Throw "ring buffer capacity must be positive"
  /\ match RingBuffer_new nat 3 with
     | Ok b0 =>
         RingBuffer_toArray (fold_left RingBuffer_push [1; 2; 3; 4; 5]%nat b0)
         = [3; 4; 5]%nat
     | Throw _ => False
     end.
Proof. split; reflexivity. Qed.

(** ** parseHrMeasurement *)

Lemma byte_at_bounds (value : DataView) (offset : Z) :
  (0 <= byte_at value offset < 256)%Z.
Proof.
  unfold byte_at.
  pose proof (Byte.to_N_bounded (nth (Z.to_nat offset) value Byte.x00)).
  lia.
Qed.

Lemma rr_word_bounds (w : Z) :
  (0 <= w < 65536)%Z -> 0 <= inject_Z w / 1024 < 64.
Proof.
  intros [H0 H1].
  assert (0 <= inject_Z w)
    by (change 0 with (inject_Z 0); now rewrite <- Zle_Qle).
  assert (inject_Z w < 65536)
    by (change 65536 with (inject_Z 65536); now rewrite <- Zlt_Qlt).
  split; [apply Qle_shift_div_l | apply Qlt_shift_div_r]; lra.
Qed.

Lemma rr_loop_reads (value : DataView) : forall fuel offset rr_s,
  (0 <= offset)%Z ->
  (byteLength value - offset <= 2 * Z.of_nat fuel)%Z ->
  exists l,
    rr_loop fuel value offset rr_s = Ok (rr_s ++ l)
    /\ Forall (fun rr => 0 <= rr < 64) l
    /\ Z.of_nat (length l) = Z.max 0 ((byteLength value - offset) / 2).
Proof.
  induction fuel as [|fuel IH]; intros offset rr_s Hoff Hfuel;
    cbn [rr_loop].
  - exists []. rewrite app_nil_r. repeat split; [constructor|].
    cbn [length].
    pose proof (Z.div_le_upper_bound (byteLength value - offset) 2 0).
    lia.
  - destruct (offset + 1 <? byteLength value)%Z eqn:E;
      [apply Z.ltb_lt in E | apply Z.ltb_ge in E].
    + unfold getUint16.
      destruct (offset <? 0)%Z eqn:E1; [apply Z.ltb_lt in E1; lia|].
      destruct (byteLength value <? offset + 2)%Z eqn:E2;
        [apply Z.ltb_lt in E2; lia|].
      cbn [orb]. cbv iota.
      destruct (IH (offset + 2)%Z
                  (rr_s ++ [inject_Z (byte_at value offset
                                      + 256 * byte_at value (offset + 1))
                            / 1024]))
        as (l & Hrun & Hrange & Hcount); [lia|lia|].
      eexists (_ :: l). rewrite Hrun, <- app_assoc. cbn [app].
      split; [reflexivity|]. split.
      * constructor; [|exact Hrange]. apply rr_word_bounds.
        pose proof (byte_at_bounds value offset).
        pose proof (byte_at_bounds value (offset + 1)). lia.
      * cbn [length]. rewrite Nat2Z.inj_succ, Hcount.
        replace (byteLength value - offset)%Z
          with (byteLength value - (offset + 2) + 1 * 2)%Z by lia.
        rewrite Z.div_add by lia.
        pose proof (Z.div_pos (byteLength value - (offset + 2)) 2). lia.
    + exists []. rewrite app_nil_r. repeat split; [constructor|].
      cbn [length].
      pose proof (Z.div_le_upper_bound (byteLength value - offset) 2 0).
      pose proof (Z.div_small (byteLength value - offset) 2).
      destruct (Z.le_gt_cases (byteLength value - offset) 0); lia.
Qed.

(** X10.  [parseHrMeasurement] never reads outside the packet: it fails only
    with its own two errors (a packet under 2 bytes, or a 16-bit heart rate
    cut short), and otherwise returns a heart rate below 65536 (the second
    byte alone in the 8-bit format) and, when the RR flag is set, one
    interval per whole 16-bit word after the header, each in [0, 64) s; a
    stray last byte is ignored. *)
Theorem parseHrMeasurement_in_bounds (value : DataView) :
  parse_outcome value (parseHrMeasurement value).
Proof.
  unfold parse_outcome, parseHrMeasurement. cbv zeta.
  destruct (byteLength value <? 2)%Z eqn:Elen;
    [apply Z.ltb_lt in Elen; now left | apply Z.ltb_ge in Elen].
  unfold getUint8 at 1.
  destruct (byteLength value <? 0 + 1)%Z eqn:E0;
    [apply Z.ltb_lt in E0; lia|].
  simpl orb. cbv iota.
  set (flags := byte_at value 0).
  pose proof (byte_at_bounds value 1) as Hb1.
  pose proof (byte_at_bounds value 2) as Hb2.
  assert (Hrr : forall offset hr,
            (0 <= offset)%Z ->
            (offset = rr_offset flags) ->
            (0 <= hr < 65536)%Z ->
            (Z.land flags 1 = 1%Z ->
             (3 <= byteLength value)%Z
             /\ hr = (byte_at value 1 + 256 * byte_at value 2)%Z) ->
            (Z.land flags 1 <> 1%Z -> hr = byte_at value 1) ->
            match
              (if (Z.land flags 16 =? 16)%Z
               then rr_loop (length value) value offset []
               else Ok [])
            with
            | Ok rr_s =>
                parse_outcome value
                  (Ok {| parsed_hr := hr; parsed_rr_s := rr_s |})
            | Throw message => parse_outcome value (Throw message)
            end).
  { intros offset hr Hoff Heq Hhr H16 H8.
    destruct (Z.land flags 16 =? 16)%Z eqn:Erh;
      [apply Z.eqb_eq in Erh | apply Z.eqb_neq in Erh].
    - destruct (rr_loop_reads value (length value) offset [] Hoff)
        as (l & Hrun & Hrange & Hcount);
        [unfold byteLength; lia|].
      rewrite Hrun. cbn [app]. unfold parse_outcome.
      cbn [parsed_hr parsed_rr_s]. fold flags. rewrite <- Heq.
      split; [exact Elen|]. split; [exact H16|]. split; [exact H8|].
      split; [exact Hhr|]. split; [exact Hrange|].
      split; [intro; contradiction | intros _; exact Hcount].
    - unfold parse_outcome. cbn [parsed_hr parsed_rr_s]. fold flags.
      split; [exact Elen|]. split; [exact H16|]. split; [exact H8|].
      split; [exact Hhr|]. split; [constructor|].
      split; [reflexivity | intro; contradiction]. }
  unfold parse_outcome in Hrr. cbv zeta in Hrr. fold flags in Hrr.
  destruct (Z.land flags 1 =? 1)%Z eqn:E16;
    [apply Z.eqb_eq in E16 | apply Z.eqb_neq in E16].
  - destruct (byteLength value <=? 1 + 1)%Z eqn:Eshort;
      [apply Z.leb_le in Eshort; right; repeat split; [lia|assumption]
      |apply Z.leb_gt in Eshort].
    unfold getUint16.
    destruct (byteLength value <? 1 + 2)%Z eqn:E2;
      [apply Z.ltb_lt in E2; lia|].
    simpl orb. cbv iota.
    change (1 + 1)%Z with 2%Z.
    assert (Hoff : (if (Z.land flags 8 =? 8)%Z then (1 + 2 + 2)%Z
                    else (1 + 2)%Z) = rr_offset flags).
    { unfold rr_offset. rewrite (proj2 (Z.eqb_eq _ _) E16).
      destruct (Z.land flags 8 =? 8)%Z; reflexivity. }
    assert (Hpos : (0 <= if (Z.land flags 8 =? 8)%Z then 1 + 2 + 2
                         else 1 + 2)%Z)
      by (destruct (Z.land flags 8 =? 8)%Z; lia).
    assert (Hhr : (0 <= byte_at value 1 + 256 * byte_at value 2 < 65536)%Z)
      by lia.
    assert (Hlong : (3 <= byteLength value)%Z) by lia.
    assert (H := Hrr _ _ Hpos Hoff Hhr
                   (fun _ => conj Hlong eq_refl)
                   (fun Hne => match Hne E16 with end)).
    destruct (if (Z.land flags 16 =? 16)%Z then _ else _); exact H.
  - unfold getUint8.
    destruct (byteLength value <? 1 + 1)%Z eqn:E2;
      [apply Z.ltb_lt in E2; lia|].
    simpl orb. cbv iota.
    assert (Hoff : (if (Z.land flags 8 =? 8)%Z then (1 + 1 + 2)%Z
                    else (1 + 1)%Z) = rr_offset flags).
    { unfold rr_offset. rewrite (proj2 (Z.eqb_neq _ _) E16).
      destruct (Z.land flags 8 =? 8)%Z; reflexivity. }
    assert (Hpos : (0 <= if (Z.land flags 8 =? 8)%Z then 1 + 1 + 2
                         else 1 + 1)%Z)
      by (destruct (Z.land flags 8 =? 8)%Z; lia).
    assert (Hhr : (0 <= byte_at value 1 < 65536)%Z) by lia.
    assert (H := Hrr _ _ Hpos Hoff Hhr
                   (fun Heq => match E16 Heq with end)
                   (fun _ => eq_refl)).
    destruct (if (Z.land flags 16 =? 16)%Z then _ else _); exact H.
Qed.

Example parseHrMeasurement_example :
  parseHrMeasurement sample_packet
  = Ok {| parsed_hr := 60;
          parsed_rr_s := [inject_Z 1024 / 1024; inject_Z 512 / 1024] |}
  /\ parseHrMeasurement [Byte.x01; Byte.x3c]
     = Throw "invalid heart rate packet: missing uint16 HR value"
  /\ parseHrMeasurement [Byte.x10]
     = Throw "heart rate packet is too short".
Proof. repeat split. Qed.

(** ** computeSignalQuality, on every input *)

(** X11.  Whatever the window and the staleness, the signal-quality score
    is an integer percentage; it is 0 when the window has fewer than 6
    samples, holds no value in range, or went stale for more than 8 s; and
    the labels "Excellent", "Good" and "Fair" are shown exactly for the
    scores from 85, from 70 to 84 and from 50 to 69. *)
Theorem computeSignalQuality_always `{MathLib}
    (rrWindow_s : list Num.number) (staleMs : Q) :
  let state := computeSignalQuality rrWindow_s staleMs in
  (0 <= quality_score state <= 100)%Z
  /\ ((length rrWindow_s < 6)%nat \/ in_range rrWindow_s = []
      \/ 8000 < staleMs -> quality_score state = 0%Z)
  /\ (quality_label state = "Excellent"%string
      <-> (85 <= quality_score state)%Z)
  /\ (quality_label state = "Good"%string
      <-> (70 <= quality_score state < 85)%Z)
  /\ (quality_label state = "Fair"%string
      <-> (50 <= quality_score state < 70)%Z).
Proof.
  cbv zeta. unfold computeSignalQuality.
  destruct (length rrWindow_s <? 6)%nat eqn:E6.
  { destruct (Num.ltb 8000 staleMs); simpl;
      repeat split; intros; try discriminate; lia. }
  apply Nat.ltb_ge in E6.
  destruct (length (in_range rrWindow_s) =? 0)%nat eqn:E0.
  { simpl. repeat split; intros; try discriminate; lia. }
  apply Nat.eqb_neq in E0. cbv zeta.
  set (rawScore := 100 * _).
  set (score := if Num.ltb 8000 staleMs then 0%Z
                else Num.round (clamp rawScore 0 100)).
  assert (Hscore : (0 <= score <= 100)%Z).
  { unfold score. destruct (Num.ltb 8000 staleMs); [lia|].
    apply round_percent, clamp_bounds. lra. }
  assert (Hzero : (length rrWindow_s < 6)%nat \/ in_range rrWindow_s = []
                  \/ 8000 < staleMs -> score = 0%Z).
  { intros [Hshort|[Hnone|Hstale]].
    - lia.
    - rewrite Hnone in E0. contradiction.
    - unfold score. apply ltb_true_iff in Hstale. now rewrite Hstale. }
  destruct (Z.leb_spec 85 score);
    [simpl; repeat split; intros; try discriminate; auto; lia|].
  destruct (Z.leb_spec 70 score);
    [simpl; repeat split; intros; try discriminate; auto; lia|].
  destruct (Z.leb_spec 50 score);
    [simpl; repeat split; intros; try discriminate; auto; lia|].
  destruct (Z.ltb_spec 0 score);
    [simpl; repeat split; intros; try discriminate; auto; lia|].
  destruct (Num.ltb 8000 staleMs); simpl;
    repeat split; intros; try discriminate; auto; lia.
Qed.

(** ** computeTimeDomain *)






(** Three beats 0.1 s apart from each other: both successive differences
    exceed 50 ms. *)
Example computeTimeDomain_example :
  let metrics := @computeTimeDomain approxMath [1; 11 # 10; 1] in
  meanRr metrics == 31 # 30 /\ meanHr metrics == 1800 # 31
  /\ pnn50 metrics == 100.
Proof. vm_compute. repeat split. Qed.

Example computeTimeDomain_empty :
  @computeTimeDomain approxMath []
  = {| meanHr := 0; meanRr := 0; rmssd := 0; sdnn := 0; pnn50 := 0 |}.
Proof. reflexivity. Qed.

Lemma nth_repeat_lt {A : Type} (v d : A) (n i : nat) :
  (i < n)%nat -> nth i (repeat v n) d = v.
Proof.
  revert i. induction n as [|n IH]; intros i Hi; [lia|].
  destruct i; simpl; [reflexivity|]. apply IH. lia.
Qed.






(** ** The calibration scan with the worker ready *)

Lemma segments_frequencies (rrTimes_s rr_s : list Num.number)
    (frequenciesHz : list Q) (stepSec : Q) :
  map segment_frequencyHz
    (calculateCalibrationSegments rrTimes_s rr_s frequenciesHz stepSec)
  = frequenciesHz.
Proof.
  unfold calculateCalibrationSegments. rewrite map_map.
  generalize 0%nat. induction frequenciesHz as [|f fs IH]; intro a;
    [reflexivity|].
  simpl. rewrite IH. f_equal.
  unfold calibration_segment. now destruct (fold_left _ _ _).
Qed.

Lemma points_frequencies segments points :
  Forall2 point_of_segment segments points ->
  map frequencyHz points = map segment_frequencyHz segments
  /\ Forall (fun point => breathsPerMin point = frequencyHz point * 60) points.
Proof.
  induction 1 as [|segment point segments points (Hf & Hb & _) _ [IH1 IH2]];
    simpl; [split; [reflexivity|constructor]|].
  split; [now rewrite Hf, IH1|].
  constructor; [now rewrite Hb, Hf | exact IH2].
Qed.

Section ReadyWorker.

Context {M : MathLib}.

Lemma analyzeInWorker_score payload result :
  analyzeInWorker (Some onmessage) payload = Fulfilled result ->
  0 <= coherenceScore (m_coherence (result_metrics result)) <= 1.
Proof.
  unfold analyzeInWorker, onmessage. simpl.
  destruct (Nat.eq_dec (length (payload_rrTimes_s payload))
                       (length (payload_rr_s payload))) as [Hlen|Hlen].
  - destruct (analyze_consistent _ _ (payload_targetHz payload) Hlen)
      as (r & -> & _ & Hscore & _).
    intro H. inversion H; subst. exact Hscore.
  - unfold analyze. rewrite (cleanRrSeries_throw _ _ no_options Hlen).
    discriminate.
Qed.

Lemma scan_segments_scores segments : forall posted pts posted' pts',
  scan_segments (Some onmessage) segments posted pts
    = (posted', Fulfilled pts') ->
  Forall (fun point => 0 <= score point <= 1) pts ->
  Forall (fun point => 0 <= score point <= 1) pts'.
Proof.
  induction segments as [|segment rest IH]; intros posted pts posted' pts' H HF;
    cbn [scan_segments] in H.
  - now inversion H; subst.
  - destruct (length (segment_rr_s segment) <? 16)%nat.
    + apply (IH _ _ _ _ H). apply Forall_app. split; [exact HF|].
      constructor; [simpl; lra|constructor].
    + destruct (analyzeInWorker (Some onmessage) (segment_payload segment))
        as [result| |] eqn:E; try discriminate H.
      apply (IH _ _ _ _ H). apply Forall_app. split; [exact HF|].
      constructor; [|constructor].
      exact (analyzeInWorker_score _ _ E).
Qed.

End ReadyWorker.

(** X14.  With the analysis worker ready, [performCalibrationSummary]
    always returns six points, at the six candidate frequencies in order,
    each with a score in [0, 1] and a breathing rate of 60 times its
    frequency; [best] is present, is one of the points, and so recommends
    one of the candidate frequencies. *)
Theorem performCalibrationSummary_candidates `{MathLib}
    (rrTimes_s rr_s : list Num.number) :
  exists posted summary,
    performCalibrationSummary (Some onmessage) rrTimes_s rr_s
      = (posted, Fulfilled summary)
    /\ map frequencyHz (scanned summary) = CALIBRATION_FREQUENCIES_HZ
    /\ Forall (fun point =>
                 0 <= score point <= 1
                 /\ breathsPerMin point = frequencyHz point * 60)
         (scanned summary)
    /\ exists point,
         best summary = Some point
         /\ In point (scanned summary)
         /\ In (frequencyHz point) CALIBRATION_FREQUENCIES_HZ.
Proof.
  unfold performCalibrationSummary.
  set (segments := calculateCalibrationSegments rrTimes_s rr_s
                     CALIBRATION_FREQUENCIES_HZ CALIBRATION_STEP_SEC).
  destruct (scan_segments_ready segments [] []) as [pts Hpts].
  { apply calculateCalibrationSegments_lengths. }
  destruct (scan_segments (Some onmessage) segments [] [])
    as [posted outcome] eqn:Escan.
  simpl in Hpts. subst outcome.
  exists posted, (summarize pts). split; [reflexivity|].
  destruct (scan_segments_fulfilled _ _ _ _ _ _ Escan)
    as (new & Hnew & HF & _). simpl in Hnew. subst new.
  destruct (points_frequencies _ _ HF) as [Hfreq Hbpm].
  pose proof (segments_frequencies rrTimes_s rr_s
                CALIBRATION_FREQUENCIES_HZ CALIBRATION_STEP_SEC) as Hseg.
  fold segments in Hseg. rewrite Hseg in Hfreq.
  pose proof (scan_segments_scores _ _ _ _ _ Escan (Forall_nil _)) as Hscores.
  cbn [scanned best summarize].
  split; [exact Hfreq|]. split.
  { rewrite Forall_forall in *. intros point Hin.
    split; [now apply Hscores | now apply Hbpm]. }
  destruct pts as [|c l]; [discriminate Hfreq|]. simpl fold_left.
  destruct (best_fold l c [] []) as (b & Hfold & before & after & Heq & _);
    [constructor | constructor |].
  exists b. split; [exact Hfold|].
  assert (Hin : In b (c :: l)).
  { simpl app in Heq. rewrite Heq. apply in_elt. }
  split; [exact Hin|].
  rewrite <- Hfreq. now apply in_map.
Qed.

(** ** integrateBand over nested bands *)

(** X15.  With non-negative powers [integrateBand] is non-negative and
    grows with the band: widening the band on either side never lowers the
    integral. *)
Theorem integrateBand_monotone (psd : PsdData) (lo hi lo' hi' : Q) :
  Forall (fun x => 0 <= x) (psd_p psd) ->
  lo' <= lo -> hi <= hi' ->
  0 <= integrateBand psd lo hi <= integrateBand psd lo' hi'.
Proof.
  intros Hp Hlo Hhi. split.
  - now apply integrateBand_nonneg.
  - now apply integrateBand_mono.
Qed.

Lemma integrateBand_monotone_witness :
  0 <= integrateBand peaked_psd (1 # 10) (2 # 10)
    <= integrateBand peaked_psd (4 # 100) (4 # 10).
Proof.
  apply (integrateBand_monotone peaked_psd (1 # 10) (2 # 10)
           (4 # 100) (4 # 10)).
  - unfold peaked_psd; simpl. forall_nonneg.
  - lra.
  - lra.
Defined.

(** ** A steady rhythm through the artifact filter *)

Lemma sort_repeat (x : Q) (k : nat) : sort (repeat x k) = repeat x k.
Proof.
  induction k as [|k IH]; [reflexivity|].
  simpl. rewrite IH. destruct k as [|k]; [reflexivity|].
  simpl. assert (E : Num.leb x x = true) by (apply leb_true_iff; lra).
  now rewrite E.
Qed.

Lemma median_repeat (x : Q) (k : nat) :
  (0 < k)%nat -> median (repeat x k) == x.
Proof.
  intro Hk. unfold median. rewrite sort_repeat, repeat_length.
  destruct (k =? 0)%nat eqn:E0; [apply Nat.eqb_eq in E0; lia|]. cbv zeta.
  assert (Hmid : (k / 2 < k)%nat) by (apply Nat.div_lt; lia).
  destruct (k mod 2 =? 0)%nat.
  - rewrite !nth_repeat_lt by lia. field.
  - rewrite nth_repeat_lt by lia. reflexivity.
Qed.

Lemma Forall_firstn {A : Type} (P : A -> Prop) (l : list A) : forall n,
  Forall P l -> Forall P (firstn n l).
Proof.
  induction l as [|x l IH]; intros [|n] HF; simpl; try constructor;
    inversion HF; subst; auto.
Qed.

Lemma Forall_skipn {A : Type} (P : A -> Prop) (l : list A) : forall n,
  Forall P l -> Forall P (skipn n l).
Proof.
  induction l as [|x l IH]; intros [|n] HF; simpl; try assumption.
  inversion HF; subst; auto.
Qed.

Lemma slice_repeat {A : Type} (v : A) (n : nat) (start stop : Z) :
  slice (repeat v n) start stop
  = repeat v (length (slice (repeat v n) start stop)).
Proof.
  apply Forall_eq_repeat. unfold slice.
  apply Forall_firstn, Forall_skipn, Forall_forall.
  intros x Hx. now apply repeat_spec in Hx.
Qed.

Lemma hampel_keep_steady (config : ArtifactConfig) (c : Q) (n i : nat) :
  hampel_keep config (repeat c n) i = true.
Proof.
  unfold hampel_keep. cbv zeta.
  set (local := slice (repeat c n) _ _).
  assert (Hlocal : local = repeat c (length local)) by apply slice_repeat.
  destruct (length local) as [|k] eqn:Ek.
  - rewrite Hlocal. reflexivity.
  - rewrite Hlocal, map_repeat.
    set (d := Qabs (c - median (repeat c (S k)))).
    assert (Hd : d == 0).
    { unfold d. rewrite (median_repeat c (S k)) by lia.
      setoid_replace (c - c) with 0 by ring. reflexivity. }
    assert (Hmad : Num.eqb (median (repeat d (S k))) 0 = true).
    { apply Qeq_bool_iff. rewrite median_repeat by lia. exact Hd. }
    now rewrite Hmad.
Qed.

Lemma filter_all {A : Type} (keep : A -> bool) (l : list A) :
  (forall x, keep x = true) -> filter keep l = l.
Proof.
  intro H. induction l as [|x l IH]; simpl; [reflexivity|].
  now rewrite H, IH.
Qed.

Lemma map_nth_seq_id {A : Type} (d : A) (l : list A) :
  map (fun i => nth i l d) (seq 0 (length l)) = l.
Proof.
  induction l as [|x l IH]; simpl; [reflexivity|].
  f_equal. rewrite <- seq_shift, map_map. exact IH.
Qed.

Lemma range_pick_steady (config : ArtifactConfig) (c : Q) (times : list Q) :
  minRrSec config <= c <= maxRrSec config ->
  flat_map (range_pick config)
    (combine (map Num.Finite times) (repeat (Num.Finite c) (length times)))
  = map (fun time => (time, c)) times.
Proof.
  intros [Hlo Hhi]. induction times as [|t times IH]; simpl; [reflexivity|].
  rewrite IH. unfold range_pick. simpl.
  assert (E1 : Num.ltb c (minRrSec config) = false)
    by (apply ltb_false_iff; exact Hlo).
  assert (E2 : Num.ltb (maxRrSec config) c = false)
    by (apply ltb_false_iff; exact Hhi).
  now rewrite E1, E2.
Qed.

(** X16.  A perfectly steady series passes the artifact filter unchanged:
    when every interval is the same value [c] of [0.3, 2.0], with finite
    timestamps, [cleanRrSeries] returns every sample (the MAD of each window
    is 0, and a zero MAD drops nothing). *)
Theorem cleanRrSeries_steady (times : list Q) (c : Q) :
  3 # 10 <= c <= 2 ->
  cleanRrSeries (map Num.Finite times)
    (repeat (Num.Finite c) (length times)) no_options
  = Ok {| cleaned_rrTimes_s := times;
          cleaned_rr_s := repeat c (length times) |}.
Proof.
  intro Hc. unfold cleanRrSeries.
  change (merge_options no_options) with DEFAULT_OPTIONS.
  rewrite length_map, repeat_length, Nat.eqb_refl. simpl negb. cbv iota.
  rewrite range_filter_picks by now rewrite length_map, repeat_length.
  rewrite (range_pick_steady DEFAULT_OPTIONS c times Hc).
  rewrite !map_map. cbn [fst snd].
  rewrite map_id, map_const.
  rewrite hampel_fold. cbn [fst snd app].
  rewrite filter_all by (intro i; apply hampel_keep_steady).
  rewrite (map_nth_seq_id 0 (repeat c (length times))).
  rewrite repeat_length, (map_nth_seq_id 0 times).
  now destruct (length times <? 3)%nat.
Qed.

Lemma cleanRrSeries_steady_witness :
  cleanRrSeries (map Num.Finite [1; 2; 3; 4])
    (repeat (Num.Finite 1) (length [1; 2; 3; 4])) no_options
  = Ok {| cleaned_rrTimes_s := [1; 2; 3; 4];
          cleaned_rr_s := repeat 1 (length [1; 2; 3; 4]) |}.
Proof.
  apply (cleanRrSeries_steady [1; 2; 3; 4] 1). split; lra.
Defined.

(** ** The spectrum of a constant signal *)




Section ConstantSignal.

Context {M : MathLib}.



End ConstantSignal.



(** ** computeSignalQuality in double precision *)

Module F64Facts.

Import Stdlib.Floats.PrimFloat.



(** Where the doubles matter.  On [gap_window], 6 s stale, the exact
    composite is 77.5, which rounds to 78; the doubles evaluate it to
    77.499999999999986 and the score of the code is 77. *)
Example computeSignalQuality_double_half :
  F64.quality_composite F64.gap_window 6000 = 0x1.35fffffffffffp+6%float
  /\ F64.computeSignalQuality F64.gap_window 6000
     = {| F64.quality_score := 77; F64.quality_label := "Good" |}
  /\ @quality_composite approxMath
       (map Num.Finite [1; 1; 1; 1; 1; 5]) 6000 == 155 # 2
  /\ Num.round
       (clamp (@quality_composite approxMath
                 (map Num.Finite [1; 1; 1; 1; 1; 5]) 6000) 0 100)
     = 78%Z.
Proof. vm_compute. repeat split. Qed.

(** Six steady, fresh beats score 100; the same window 9 s stale scores 0. *)
Example computeSignalQuality_double_steady :
  F64.computeSignalQuality [1; 1; 1; 1; 1; 1]%float 0
  = {| F64.quality_score := 100; F64.quality_label := "Excellent" |}
  /\ F64.computeSignalQuality [1; 1; 1; 1; 1; 1]%float 9000
     = {| F64.quality_score := 0; F64.quality_label := "No RR Signal" |}.
Proof. vm_compute. split; reflexivity. Qed.

End F64Facts.
